(** * Three Shapes game engine: a shallow embedding of [three_shapes_game.py]

    The [Game] class keeps a registry of entities (an active set and two
    staging sets), dispatches proximity notifications in sorted order,
    detects contact with the window edges and redraws the window.

    Modelling choices.
    - Entities are opaque handles ([Obj], compared by identity); Python's
      [set] of entities is a [gset Obj], iterated in the order of
      [elements] (Python's hash order is just as arbitrary, and nothing
      below depends on it).
    - Coordinates, radii and distances live in an abstract numeric type
      (class [Number]) carrying exactly the operations the source applies
      to them; the facts about sorting assume that [<] and [==] form a
      strict total order on it ([NumberOrder]), which holds for Python's
      [int] and for every [float] but NaN.
    - A method is a function from the world to an [outcome]: it either
      returns or raises, and in both cases the (mutated) world survives,
      as Python objects do when an exception propagates.  [assert] is
      modelled as enabled (no [-O]).
    - Entity callbacks are programs ([Prog]) over the entity's own
      attributes, the window, and the public methods of [Game].
    - The world carries a log of the calls made on entities and on the
      window, which is how the order of notifications is observed. *)

From Stdlib Require Import ZArith Bool Sorted Permutation.
From stdpp Require Import base gmap sets list strings.

Open Scope string_scope.
Open Scope list_scope.

(** ** Numbers *)

(** The arithmetic and comparisons the engine performs on coordinates. *)
Class Number (num : Type) := {
  num_zero : num;                      (* the literal [0] *)
  num_add  : num -> num -> num;        (* [a + b] *)
  num_sub  : num -> num -> num;        (* [a - b] *)
  num_sq   : num -> num;               (* [a ** 2] *)
  num_sqrt : num -> num;               (* [math.sqrt(a)] *)
  num_eqb  : num -> num -> bool;       (* [a == b] *)
  num_ltb  : num -> num -> bool;       (* [a < b] *)
  num_geb  : num -> num -> bool;       (* [a >= b] *)
}.

(** [<] and [==] form a strict total order. *)
Class NumberOrder (num : Type) `{Number num} : Prop := {
  num_eqb_eq     : forall a b : num, num_eqb a b = true <-> a = b;
  num_ltb_irrefl : forall a : num, num_ltb a a = false;
  num_ltb_trans  : forall a b c : num,
      num_ltb a b = true -> num_ltb b c = true -> num_ltb a c = true;
  num_ltb_total  : forall a b : num,
      num_ltb a b = false -> num_ltb b a = false -> a = b;
}.

(** Integer coordinates, with the truncating square root. *)
#[global] Instance Z_Number : Number Z := {|
  num_zero := 0%Z;
  num_add  := Z.add;
  num_sub  := Z.sub;
  num_sq   := fun a => (a * a)%Z;
  num_sqrt := Z.sqrt;
  num_eqb  := Z.eqb;
  num_ltb  := Z.ltb;
  num_geb  := Z.geb;
|}.

#[global] Instance Z_NumberOrder : NumberOrder Z.
Proof.
  split; simpl.
  - intros a b. apply Z.eqb_eq.
  - intros a. apply Z.ltb_irrefl.
  - intros a b c Hab Hbc. apply Z.ltb_lt. apply Z.ltb_lt in Hab, Hbc. lia.
  - intros a b Hab Hba. apply Z.ltb_ge in Hab, Hba. lia.
Qed.

(** ** The window *)

(** The [graphics] module is imported, not defined, by the source: the
    engine uses its constructor, the [is_killed] attribute and the
    methods [clear] and [update_frame]. *)
Class Graphics (num Win : Type) := {
  graphics     : num -> num -> string -> Win;
  is_killed    : Win -> bool;
  clear        : Win -> Win;
  update_frame : Win -> num -> Win;
}.

(** ** Entities, exceptions and the log *)

Abbreviation Obj := nat.

(** Which [assert] failed. *)
Inductive assert_site : Set :=
| UnknownConfig      (* config_set: unrecognized config parameter *)
| AlreadyActive      (* add_obj: new_obj in _active_objs *)
| AlreadyPending     (* add_obj: new_obj in _pending_adds *)
| NotActive          (* remove_obj: bad_obj not in _active_objs *)
| RecordCount        (* do_nearby_calls: len(distances) != n*(n-1) *)
| LeftIndex.         (* do_nearby_calls: k1 != i *)

Inductive exn : Set :=
| AssertionError (site : assert_site)
| IndexError.

Section Engine.

Context {num : Type} `{Number num}.
Context {Win : Type} `{Graphics num Win}.
(** The attributes of the entities (positions, speeds, colours, ...). *)
Context {US : Type}.

(** A call made by the engine on an entity or on the window. *)
Inductive Event : Type :=
| CallNearby (left right : Obj) (dist : num) (answer : bool)
| CallMove (o : Obj)
| CallEdge (o : Obj) (side : string) (coord : num)
| CallDraw (o : Obj)
| WinClear
| WinUpdateFrame (rate : num).

(** ** The state of a [Game] object *)

Record Game : Type := mkGame {
  _wid : num;
  _hei : num;
  _frame_rate : num;
  _win : Win;
  _account_for_radii_in_dist : bool;
  _active_objs : gset Obj;
  _pending_removes : gset Obj;
  _pending_adds : gset Obj;
  _game_over : bool;
}.

Record World : Type := mkWorld {
  game  : Game;
  user  : US;
  calls : list Event;
}.

Definition with_game (f : Game -> Game) (w : World) : World :=
  mkWorld (f (game w)) (user w) (calls w).

Definition with_user (f : US -> US) (w : World) : World :=
  mkWorld (game w) (f (user w)) (calls w).

Definition log (e : Event) (w : World) : World :=
  mkWorld (game w) (user w) (calls w ++ [e]).

Definition set_account_for_radii_in_dist (v : bool) (g : Game) : Game :=
  mkGame (_wid g) (_hei g) (_frame_rate g) (_win g) v
         (_active_objs g) (_pending_removes g) (_pending_adds g) (_game_over g).

Definition set_active_objs (s : gset Obj) (g : Game) : Game :=
  mkGame (_wid g) (_hei g) (_frame_rate g) (_win g) (_account_for_radii_in_dist g)
         s (_pending_removes g) (_pending_adds g) (_game_over g).

Definition set_pending_removes (s : gset Obj) (g : Game) : Game :=
  mkGame (_wid g) (_hei g) (_frame_rate g) (_win g) (_account_for_radii_in_dist g)
         (_active_objs g) s (_pending_adds g) (_game_over g).

Definition set_pending_adds (s : gset Obj) (g : Game) : Game :=
  mkGame (_wid g) (_hei g) (_frame_rate g) (_win g) (_account_for_radii_in_dist g)
         (_active_objs g) (_pending_removes g) s (_game_over g).

Definition set__game_over (v : bool) (g : Game) : Game :=
  mkGame (_wid g) (_hei g) (_frame_rate g) (_win g) (_account_for_radii_in_dist g)
         (_active_objs g) (_pending_removes g) (_pending_adds g) v.

Definition set_win (v : Win) (g : Game) : Game :=
  mkGame (_wid g) (_hei g) (_frame_rate g) v (_account_for_radii_in_dist g)
         (_active_objs g) (_pending_removes g) (_pending_adds g) (_game_over g).

(** ** Methods: state and exceptions *)

Inductive outcome (A : Type) : Type :=
| Ok (a : A) (w : World)
| Raised (e : exn) (w : World).
Arguments Ok {A} a w.
Arguments Raised {A} e w.

Definition world_of {A} (r : outcome A) : World :=
  match r with Ok _ w => w | Raised _ w => w end.

Definition M (A : Type) : Type := World -> outcome A.

Definition ret {A} (a : A) : M A := fun w => Ok a w.

Definition bind {A B} (m : M A) (k : A -> M B) : M B :=
  fun w => match m w with
           | Ok a w' => k a w'
           | Raised e w' => Raised e w'
           end.

Definition raise {A} (e : exn) : M A := fun w => Raised e w.

Definition get_game : M Game := fun w => Ok (game w) w.

Definition get_user : M US := fun w => Ok (user w) w.

Definition modify_game (f : Game -> Game) : M unit :=
  fun w => Ok tt (with_game f w).

Definition emit (e : Event) : M unit := fun w => Ok tt (log e w).

Notation "'let*' x ':=' m 'in' k" := (bind m (fun x => k))
  (at level 10, x name, m at level 100, k at level 200).

(** [assert c] *)
Definition py_assert (c : bool) (site : assert_site) : M unit :=
  if c then ret tt else raise (AssertionError site).

(** [if c: body] *)
Definition when (c : bool) (body : M unit) : M unit :=
  if c then body else ret tt.

(** [for x in l: body(x)] *)
Fixpoint for_each {A} (l : list A) (body : A -> M unit) : M unit :=
  match l with
  | [] => ret tt
  | x :: l' => let* _ := body x in for_each l' body
  end.

(** ** The constructor *)

Definition Game_init (title : string) (frame_rate wid hei : num) : Game :=
  {| _wid := wid;
     _hei := hei;
     _frame_rate := frame_rate;
     _win := graphics wid hei title;
     _account_for_radii_in_dist := false;
     _active_objs := ∅;
     _pending_removes := ∅;
     _pending_adds := ∅;
     _game_over := false |}.

(** ** Configuration and the game-over flag *)

Definition config_set (param : string) (val : bool) : M unit :=
  if String.eqb param "account_for_radii_in_dist"
  then modify_game (set_account_for_radii_in_dist val)
  else py_assert false UnknownConfig.

Definition set_game_over : M unit := modify_game (set__game_over true).

Definition is_over : M bool := let* g := get_game in ret (_game_over g).

(** ** The registry *)

Definition add_obj (new_obj : Obj) : M unit :=
  let* g := get_game in
  let* _ := py_assert (negb (bool_decide (new_obj ∈ _active_objs g))) AlreadyActive in
  let* g := get_game in
  let* _ := py_assert (negb (bool_decide (new_obj ∈ _pending_adds g))) AlreadyPending in
  modify_game (fun g => set_pending_adds (_pending_adds g ∪ {[new_obj]}) g).

Definition remove_obj (bad_obj : Obj) : M unit :=
  let* g := get_game in
  let* _ := py_assert (bool_decide (bad_obj ∈ _active_objs g)) NotActive in
  modify_game (fun g => set_pending_removes (_pending_removes g ∪ {[bad_obj]}) g).

Definition _execute_adds_and_removes : M unit :=
  let* _ := modify_game (fun g => set_active_objs (_active_objs g ∖ _pending_removes g) g) in
  let* _ := modify_game (set_pending_removes ∅) in
  let* _ := modify_game (fun g => set_active_objs (_active_objs g ∪ _pending_adds g) g) in
  modify_game (set_pending_adds ∅).

(** ** Entity callbacks *)

(** What a callback may do: touch the entities' own attributes, draw on
    the window, and call the public methods of the [Game] it is handed.
    (Re-entrant calls of the dispatch methods are outside the contract.) *)
Inductive Prog (A : Type) : Type :=
| Ret (a : A)
| Self (f : US -> US) (k : Prog A)
| Look (k : US -> Prog A)
| Paint (f : Win -> Win) (k : Prog A)
| CallConfigSet (param : string) (val : bool) (k : Prog A)
| CallSetGameOver (k : Prog A)
| CallIsOver (k : bool -> Prog A)
| CallAddObj (o : Obj) (k : Prog A)
| CallRemoveObj (o : Obj) (k : Prog A).
Arguments Ret {A} a.
Arguments Self {A} f k.
Arguments Look {A} k.
Arguments Paint {A} f k.
Arguments CallConfigSet {A} param val k.
Arguments CallSetGameOver {A} k.
Arguments CallIsOver {A} k.
Arguments CallAddObj {A} o k.
Arguments CallRemoveObj {A} o k.

Fixpoint run {A} (p : Prog A) : M A :=
  match p with
  | Ret a => ret a
  | Self f k => fun w => run k (with_user f w)
  | Look k => fun w => run (k (user w)) w
  | Paint f k => let* _ := modify_game (fun g => set_win (f (_win g)) g) in run k
  | CallConfigSet param val k => let* _ := config_set param val in run k
  | CallSetGameOver k => let* _ := set_game_over in run k
  | CallIsOver k => let* b := is_over in run (k b)
  | CallAddObj o k => let* _ := add_obj o in run k
  | CallRemoveObj o k => let* _ := remove_obj o in run k
  end.

(** The methods every entity implements. *)
Record Entities : Type := mkEntities {
  get_xy      : Obj -> US -> num * num;
  get_radius  : Obj -> US -> num;
  nearby      : Obj -> Obj -> num -> Prog bool;   (* left.nearby(right, dist, game) *)
  move        : Obj -> Prog unit;                 (* o.move(game) *)
  edge        : Obj -> string -> num -> Prog unit; (* o.edge(side, coord) *)
  entity_draw : Obj -> Prog unit;                 (* o.draw(win) *)
}.

Context (ent : Entities).

Definition call_nearby (left right : Obj) (dist : num) : M bool :=
  let* b := run (nearby ent left right dist) in
  let* _ := emit (CallNearby left right dist b) in
  ret b.

Definition call_move (o : Obj) : M unit :=
  let* _ := run (move ent o) in emit (CallMove o).

Definition call_edge (o : Obj) (side : string) (coord : num) : M unit :=
  let* _ := run (edge ent o side coord) in emit (CallEdge o side coord).

Definition call_draw (o : Obj) : M unit :=
  let* _ := run (entity_draw ent o) in emit (CallDraw o).

(** ** Proximity dispatch *)

(** A directed record [(left index, distance, right index)]. *)
Definition entry : Type := nat * num * nat.

(** Python's [<] on such tuples. *)
Definition entry_ltb (a b : entry) : bool :=
  let '(i1, d1, j1) := a in
  let '(i2, d2, j2) := b in
  if negb (Nat.eqb i1 i2) then Nat.ltb i1 i2
  else if negb (num_eqb d1 d2) then num_ltb d1 d2
  else Nat.ltb j1 j2.

(** [list.sort()]: a stable sort that only uses [<]. *)
Fixpoint sort_insert (x : entry) (l : list entry) : list entry :=
  match l with
  | [] => [x]
  | y :: l' => if entry_ltb x y then x :: y :: l' else y :: sort_insert x l'
  end.

Definition list_sort (l : list entry) : list entry :=
  fold_left (fun acc x => sort_insert x acc) l [].

(** [l[lo:hi]] for non-negative bounds. *)
Definition py_slice {A} (l : list A) (lo hi : nat) : list A :=
  take (hi - lo) (drop lo l).

(** [l[i]] *)
Definition py_index {A} (l : list A) (i : nat) : M A :=
  match l !! i with
  | Some a => ret a
  | None => raise IndexError
  end.

(** A loop that updates a local variable. *)
Fixpoint fold_m {A B} (l : list A) (body : B -> A -> M B) (b : B) : M B :=
  match l with
  | [] => ret b
  | x :: l' => let* b' := body b x in fold_m l' body b'
  end.

Definition position : Type := Obj * num * num.

Definition snapshot (objs : list Obj) : M (list position) :=
  let* u := get_user in
  ret (map (fun o => let '(x, y) := get_xy ent o u in (o, x, y)) objs).

Definition euclid (x1 y1 x2 y2 : num) : num :=
  num_sqrt (num_add (num_sq (num_sub x1 x2)) (num_sq (num_sub y1 y2))).

(** The body of the double loop, for one pair [i < j]. *)
Definition pair_dist (p1 p2 : position) : M num :=
  let '(o1, x1, y1) := p1 in
  let '(o2, x2, y2) := p2 in
  let dist := euclid x1 y1 x2 y2 in
  let* g := get_game in
  if _account_for_radii_in_dist g then
    let* u := get_user in
    let dist := num_sub dist (get_radius ent o1 u) in
    let* u := get_user in
    let dist := num_sub dist (get_radius ent o2 u) in
    ret dist
  else ret dist.

Definition build_distances (positions : list position) : M (list entry) :=
  fold_m (seq 0 (length positions)) (fun distances i =>
    fold_m (seq (i + 1) (length positions - (i + 1))) (fun distances j =>
      let* p1 := py_index positions i in
      let* p2 := py_index positions j in
      let* dist := pair_dist p1 p2 in
      ret (distances ++ [(i, dist, j)] ++ [(j, dist, i)]))
    distances) [].

(** The inner loop over one block, with its [break]. *)
Fixpoint nearby_block (positions : list position) (i : nat)
    (block : list entry) : M unit :=
  match block with
  | [] => ret tt
  | (k1, dist, k2) :: rest =>
      let* _ := py_assert (Nat.eqb k1 i) LeftIndex in
      let* pl := py_index positions k1 in
      let* pr := py_index positions k2 in
      let left := pl.1.1 in
      let right := pr.1.1 in
      let* b := call_nearby left right dist in
      if negb b then ret tt else nearby_block positions i rest
  end.

(** [do_nearby_calls], once the iteration order of the active set is fixed. *)
Definition nearby_calls_on (objs : list Obj) : M unit :=
  let* positions := snapshot objs in
  let* distances := build_distances positions in
  let distances := list_sort distances in
  let n := length positions in
  let* _ := py_assert (Nat.eqb (length distances) (n * (n - 1))) RecordCount in
  for_each (seq 0 n) (fun i =>
    nearby_block positions i
      (py_slice distances ((n - 1) * i) ((n - 1) * (i + 1)))).

Definition do_nearby_calls : M unit :=
  let* g := get_game in
  nearby_calls_on (elements (_active_objs g)).

(** ** Movement *)

Definition do_move_calls : M unit :=
  let* g := get_game in
  for_each (elements (_active_objs g)) call_move.

(** ** Boundary *)

(** The body of the loop of [do_edge_calls]. *)
Definition edge_calls_for (o : Obj) : M unit :=
  let* u := get_user in
  let '(x, y) := get_xy ent o u in
  let* u := get_user in
  let rad := get_radius ent o u in
  let* _ := when (num_ltb x rad) (call_edge o "left" num_zero) in
  let* _ := when (num_ltb y rad) (call_edge o "top" num_zero) in
  let* g := get_game in
  let* _ := when (num_geb (num_add x rad) (_wid g))
                 (let* g := get_game in call_edge o "right" (_wid g)) in
  let* g := get_game in
  when (num_geb (num_add y rad) (_hei g))
       (let* g := get_game in call_edge o "bottom" (_hei g)).

Definition do_edge_calls : M unit :=
  let* g := get_game in
  for_each (elements (_active_objs g)) edge_calls_for.

(** ** Drawing *)

Definition win_clear : M unit :=
  let* _ := modify_game (fun g => set_win (clear (_win g)) g) in
  emit WinClear.

Definition win_update_frame (rate : num) : M unit :=
  let* _ := modify_game (fun g => set_win (update_frame (_win g) rate) g) in
  emit (WinUpdateFrame rate).

Definition draw : M unit :=
  let* _ := _execute_adds_and_removes in
  let* g := get_game in
  if is_killed (_win g) then
    modify_game (set__game_over true)
  else
    let* _ := win_clear in
    let* g := get_game in
    let* _ := for_each (elements (_active_objs g)) call_draw in
    let* g := get_game in
    win_update_frame (_frame_rate g).

(** ** Every operation of the engine *)

Inductive Op : Type :=
| OpConfigSet (param : string) (val : bool)
| OpSetGameOver
| OpIsOver
| OpAddObj (o : Obj)
| OpRemoveObj (o : Obj)
| OpExecuteAddsAndRemoves
| OpDoNearbyCalls
| OpDoMoveCalls
| OpDoEdgeCalls
| OpDraw.

Definition exec (op : Op) : M unit :=
  match op with
  | OpConfigSet param val => config_set param val
  | OpSetGameOver => set_game_over
  | OpIsOver => let* _ := is_over in ret tt
  | OpAddObj o => add_obj o
  | OpRemoveObj o => remove_obj o
  | OpExecuteAddsAndRemoves => _execute_adds_and_removes
  | OpDoNearbyCalls => do_nearby_calls
  | OpDoMoveCalls => do_move_calls
  | OpDoEdgeCalls => do_edge_calls
  | OpDraw => draw
  end.

(** The world after a sequence of operations (whether or not they raise). *)
Definition exec_all (ops : list Op) (w : World) : World :=
  fold_left (fun w op => world_of (exec op w)) ops w.

End Engine.

Arguments Ok {num Win US A} a w.
Arguments Raised {num Win US A} e w.
Arguments Ret {Win US A} a.
Arguments Self {Win US A} f k.
Arguments Look {Win US A} k.
Arguments Paint {Win US A} f k.
Arguments CallConfigSet {Win US A} param val k.
Arguments CallSetGameOver {Win US A} k.
Arguments CallIsOver {Win US A} k.
Arguments CallAddObj {Win US A} o k.
Arguments CallRemoveObj {Win US A} o k.

(** * A small game to run the engine on *)

(** A window that remembers whether it was closed and how many frames it
    has shown. *)
Record DemoWin : Type := mkDemoWin { killed : bool; frames : nat }.

#[global] Instance Demo_Graphics : Graphics Z DemoWin := {|
  graphics     := fun _ _ _ => mkDemoWin false 0;
  is_killed    := killed;
  clear        := fun win => win;
  update_frame := fun win _ => mkDemoWin (killed win) (S (frames win));
|}.

(** The entities are discs: a centre and a radius each. *)
Definition Discs : Type := Obj -> (Z * Z) * Z.

Definition move_right (o : Obj) (u : Discs) : Discs :=
  fun o' => if Nat.eqb o' o then (((u o).1.1 + 1)%Z, (u o).1.2, (u o).2) else u o'.

(** A disc listens to its neighbours while they are within distance 3,
    drifts to the right, and asks to leave the game when it meets the
    right or the bottom edge. *)
Definition demo_entities : @Entities Z DemoWin Discs := {|
  get_xy      := fun o u => (u o).1;
  get_radius  := fun o u => (u o).2;
  nearby      := fun l r d => Ret (Z.leb d 3);
  move        := fun o => Self (move_right o) (Ret tt);
  edge        := fun o side coord =>
                   if Z.eqb coord 0 then Ret tt else CallRemoveObj o (Ret tt);
  entity_draw := fun o => Paint (fun win => win) (Ret tt);
|}.

Definition demo_discs : Discs :=
  fun o => match o with
           | 0 => ((0, 0), 1)%Z
           | 1 => ((3, 0), 1)%Z
           | _ => ((0, 4), 1)%Z
           end.

Definition demo_game : @Game Z DemoWin :=
  set_active_objs {[0; 1; 2]} (Game_init "demo" 30%Z 100%Z 100%Z).

Definition demo_world : @World Z DemoWin Discs := mkWorld demo_game demo_discs [].

(** The same game with an entity staged for removal and one for addition. *)
Definition demo_staged_world : @World Z DemoWin Discs :=
  with_game (fun g => set_pending_adds {[3]} (set_pending_removes {[0]} g)) demo_world.

(** The same again, its window closed. *)
Definition demo_dead_world : @World Z DemoWin Discs :=
  with_game (set_win (mkDemoWin true 0)) demo_staged_world.

(** A game that is over. *)
Definition demo_over_world : @World Z DemoWin Discs :=
  with_game (set__game_over true) demo_world.

(** Two overlapping discs, distances taken between their rims. *)
Definition overlap_discs : Discs :=
  fun o => match o with
           | 0 => ((0, 0), 2)%Z
           | _ => ((3, 0), 2)%Z
           end.

Definition overlap_world : @World Z DemoWin Discs :=
  mkWorld (set_account_for_radii_in_dist true
             (set_active_objs {[0; 1]} (Game_init "overlap" 30%Z 100%Z 100%Z)))
          overlap_discs [].

(** * Properties *)

Section Facts.

Context {num : Type} `{Number num}.
Context {Win : Type} `{Graphics num Win}.
Context {US : Type}.

Local Abbreviation Game := (@Game num Win).
Local Abbreviation World := (@World num Win US).
Local Abbreviation M := (@M num Win US).
Local Abbreviation Event := (@Event num).
Local Abbreviation Entities := (@Entities num Win US).

Local Notation "'let*' x ':=' m 'in' k" := (bind m (fun x => k))
  (at level 10, x name, m at level 100, k at level 200).

Implicit Types (w : World) (g : Game) (o e : Obj) (ent : Entities).

(** ** The monad *)

Definition is_raised {A} (r : outcome (num:=num) (Win:=Win) (US:=US) A) : bool :=
  match r with Ok _ _ => false | Raised _ _ => true end.

(** [m] keeps the property [P] of the world, however it ends. *)
Definition preserves {A} (P : World -> Prop) (m : M A) : Prop :=
  forall w, P w -> P (world_of (m w)).

Lemma preserves_ret {A} P (a : A) : preserves P (ret a).
Proof. intros w Hw; exact Hw. Qed.

Lemma preserves_raise {A} P x : preserves P (raise (A:=A) x).
Proof. intros w Hw; exact Hw. Qed.

Lemma preserves_bind {A B} P (m : M A) (k : A -> M B) :
  preserves P m -> (forall a, preserves P (k a)) -> preserves P (bind m k).
Proof.
  intros Hm Hk w Hw. unfold bind. specialize (Hm w Hw).
  destruct (m w) as [a w1|x w1]; simpl in *; [by apply Hk | done].
Qed.

Lemma preserves_assert P c site : preserves P (py_assert c site).
Proof. destruct c; [apply preserves_ret | apply preserves_raise]. Qed.

Lemma preserves_when P c (m : M unit) : preserves P m -> preserves P (when c m).
Proof. destruct c; [done | intros _; apply preserves_ret]. Qed.

Lemma preserves_get_game P : preserves P get_game.
Proof. intros w Hw; exact Hw. Qed.

Lemma preserves_get_user P : preserves P get_user.
Proof. intros w Hw; exact Hw. Qed.

Lemma preserves_for_each {A} P (l : list A) (body : A -> M unit) :
  (forall x, preserves P (body x)) -> preserves P (for_each l body).
Proof.
  intros Hb. induction l as [|x l IH]; simpl.
  - apply preserves_ret.
  - apply preserves_bind; [apply Hb | intros _; exact IH].
Qed.

Lemma preserves_fold_m {A B} P (l : list A) (body : B -> A -> M B) b :
  (forall b x, preserves P (body b x)) -> preserves P (fold_m l body b).
Proof.
  intros Hb. revert b. induction l as [|x l IH]; intros b; simpl.
  - apply preserves_ret.
  - apply preserves_bind; [apply Hb | intros b'; apply IH].
Qed.

Lemma preserves_py_index {A} P (l : list A) i : preserves P (py_index l i).
Proof. unfold py_index. destruct (l !! i); [apply preserves_ret | apply preserves_raise]. Qed.

(** ** What callbacks can change *)

(** [P] survives every step a callback can take. *)
Record callback_stable (P : World -> Prop) : Prop := {
  stable_user : forall f w, P w -> P (with_user f w);
  stable_win : forall f w, P w -> P (with_game (fun g => set_win (f (_win g)) g) w);
  stable_config : forall v w, P w -> P (with_game (set_account_for_radii_in_dist v) w);
  stable_game_over : forall w, P w -> P (with_game (set__game_over true) w);
  stable_pending_adds :
    forall o w, P w ->
      P (with_game (fun g => set_pending_adds (_pending_adds g ∪ {[o]}) g) w);
  stable_pending_removes :
    forall o w, P w ->
      P (with_game (fun g => set_pending_removes (_pending_removes g ∪ {[o]}) g) w);
}.

Lemma config_set_preserves P param val :
  callback_stable P -> preserves P (config_set param val).
Proof.
  intros HP. unfold config_set. destruct (String.eqb _ _).
  - intros w Hw. simpl. by apply stable_config.
  - apply preserves_assert.
Qed.

Lemma set_game_over_preserves P : callback_stable P -> preserves P set_game_over.
Proof. intros HP w Hw. simpl. by apply stable_game_over. Qed.

Lemma is_over_preserves P : preserves P is_over.
Proof. intros w Hw; exact Hw. Qed.

Lemma add_obj_preserves P o : callback_stable P -> preserves P (add_obj o).
Proof.
  intros HP. unfold add_obj.
  apply preserves_bind; [apply preserves_get_game | intros g1].
  apply preserves_bind; [apply preserves_assert | intros _].
  apply preserves_bind; [apply preserves_get_game | intros g2].
  apply preserves_bind; [apply preserves_assert | intros _].
  intros w Hw. simpl. by apply stable_pending_adds.
Qed.

Lemma remove_obj_preserves P o : callback_stable P -> preserves P (remove_obj o).
Proof.
  intros HP. unfold remove_obj.
  apply preserves_bind; [apply preserves_get_game | intros g1].
  apply preserves_bind; [apply preserves_assert | intros _].
  intros w Hw. simpl. by apply stable_pending_removes.
Qed.

Lemma run_preserves {A} P (p : Prog A) : callback_stable P -> preserves P (run p).
Proof.
  intros HP. induction p as [a|f k IH|k IH|f k IH|param val k IH|k IH|k IH|o k IH|o k IH];
    simpl.
  - apply preserves_ret.
  - intros w Hw. apply IH. by apply stable_user.
  - intros w Hw. by apply IH.
  - apply preserves_bind; [|intros _; exact IH].
    intros w Hw. simpl. by apply stable_win.
  - apply preserves_bind; [by apply config_set_preserves | intros _; exact IH].
  - apply preserves_bind; [by apply set_game_over_preserves | intros _; exact IH].
  - apply preserves_bind; [apply is_over_preserves | intros b; apply IH].
  - apply preserves_bind; [by apply add_obj_preserves | intros _; exact IH].
  - apply preserves_bind; [by apply remove_obj_preserves | intros _; exact IH].
Qed.

(** ** Configuration *)

(** C8: [config_set] with the recognized name stores the value in the
    option and changes nothing else; with any other name it raises the
    assertion error and leaves the whole world, option included, as it was. *)
Theorem config_set_spec (param : string) (val : bool) w :
  (param = "account_for_radii_in_dist" ->
     config_set param val w
       = Ok tt (with_game (set_account_for_radii_in_dist val) w)
     /\ _account_for_radii_in_dist (game (world_of (config_set param val w))) = val)
  /\ (param <> "account_for_radii_in_dist" ->
     config_set param val w = Raised (AssertionError UnknownConfig) w).
Proof.
  unfold config_set. split.
  - intros ->. rewrite String.eqb_refl. done.
  - intros Hne. apply String.eqb_neq in Hne. rewrite Hne. done.
Qed.

(** ** The registry *)

(** The game after reconciliation. *)
Definition reconciled g : Game :=
  set_pending_adds ∅
    (set_pending_removes ∅
      (set_active_objs
         ((_active_objs g ∖ _pending_removes g) ∪ _pending_adds g) g)).

Lemma execute_adds_and_removes_eq w :
  _execute_adds_and_removes w = Ok tt (with_game reconciled w).
Proof. reflexivity. Qed.

(** C4: reconciliation returns, makes the active set equal to
    (active minus pending-removes) union pending-adds, with the removals
    applied first (an entity in both staging sets ends up active), and
    empties both staging sets; nothing else in the world changes. *)
Theorem execute_adds_and_removes_spec w :
  exists w',
    _execute_adds_and_removes w = Ok tt w'
    /\ _active_objs (game w')
       = (_active_objs (game w) ∖ _pending_removes (game w)) ∪ _pending_adds (game w)
    /\ _pending_removes (game w') = ∅
    /\ _pending_adds (game w') = ∅
    /\ (forall x, x ∈ _pending_adds (game w) -> x ∈ _active_objs (game w'))
    /\ w' = with_game reconciled w.
Proof.
  exists (with_game reconciled w). repeat split. simpl. set_solver.
Qed.

Lemma add_obj_ok e w :
  e ∉ _active_objs (game w) -> e ∉ _pending_adds (game w) ->
  add_obj e w
  = Ok tt (with_game (fun g => set_pending_adds (_pending_adds g ∪ {[e]}) g) w).
Proof.
  intros Ha Hp. unfold add_obj, bind, get_game.
  rewrite (bool_decide_eq_false_2 _ Ha). simpl.
  rewrite (bool_decide_eq_false_2 _ Hp). done.
Qed.

Lemma add_obj_active e w :
  e ∈ _active_objs (game w) ->
  add_obj e w = Raised (AssertionError AlreadyActive) w.
Proof.
  intros Ha. unfold add_obj, bind, get_game.
  rewrite (bool_decide_eq_true_2 _ Ha). done.
Qed.

Lemma add_obj_pending e w :
  e ∉ _active_objs (game w) -> e ∈ _pending_adds (game w) ->
  add_obj e w = Raised (AssertionError AlreadyPending) w.
Proof.
  intros Ha Hp. unfold add_obj, bind, get_game.
  rewrite (bool_decide_eq_false_2 _ Ha). simpl.
  rewrite (bool_decide_eq_true_2 _ Hp). done.
Qed.

Lemma remove_obj_ok e w :
  e ∈ _active_objs (game w) ->
  remove_obj e w
  = Ok tt (with_game
             (fun g => set_pending_removes (_pending_removes g ∪ {[e]}) g) w).
Proof.
  intros Ha. unfold remove_obj, bind, get_game.
  rewrite (bool_decide_eq_true_2 _ Ha). done.
Qed.

Lemma remove_obj_not_active e w :
  e ∉ _active_objs (game w) ->
  remove_obj e w = Raised (AssertionError NotActive) w.
Proof.
  intros Ha. unfold remove_obj, bind, get_game.
  rewrite (bool_decide_eq_false_2 _ Ha). done.
Qed.

(** C6: [add_obj e] raises exactly when [e] is active or pending-add
    (and then changes nothing); otherwise it only puts [e] in the
    pending-add set, the active set staying as it is.  [remove_obj e]
    raises exactly when [e] is not active (and then changes nothing);
    otherwise it puts [e] in the pending-remove set, and doing it a
    second time returns again and leaves the world as the first call did. *)
Theorem add_remove_obj_spec e w :
  (is_raised (add_obj e w) = true
     <-> e ∈ _active_objs (game w) \/ e ∈ _pending_adds (game w))
  /\ (is_raised (add_obj e w) = true -> world_of (add_obj e w) = w)
  /\ (is_raised (add_obj e w) = false ->
        add_obj e w
        = Ok tt (with_game
                   (fun g => set_pending_adds (_pending_adds g ∪ {[e]}) g) w)
        /\ _active_objs (game (world_of (add_obj e w))) = _active_objs (game w))
  /\ (is_raised (remove_obj e w) = true <-> e ∉ _active_objs (game w))
  /\ (is_raised (remove_obj e w) = true -> world_of (remove_obj e w) = w)
  /\ (is_raised (remove_obj e w) = false ->
        remove_obj e w
        = Ok tt (with_game
                   (fun g => set_pending_removes (_pending_removes g ∪ {[e]}) g) w)
        /\ _active_objs (game (world_of (remove_obj e w))) = _active_objs (game w)
        /\ remove_obj e (world_of (remove_obj e w))
           = Ok tt (world_of (remove_obj e w))).
Proof.
  destruct (decide (e ∈ _active_objs (game w))) as [Ha|Ha].
  - rewrite (add_obj_active _ _ Ha), (remove_obj_ok _ _ Ha). simpl.
    split_and!; try done.
    + split; [by left | done].
    + intros _. split_and!; try done.
      rewrite remove_obj_ok by done. destruct w as [g u c]. unfold with_game; simpl.
      do 2 f_equal. unfold set_pending_removes; simpl. f_equal. set_solver.
  - rewrite (remove_obj_not_active _ _ Ha). simpl.
    destruct (decide (e ∈ _pending_adds (game w))) as [Hp|Hp].
    + rewrite (add_obj_pending _ _ Ha Hp). simpl.
      split_and!; try done. split; [by right | done].
    + rewrite (add_obj_ok _ _ Ha Hp). simpl.
      split_and!; try done. split; [done | by intros [?|?]].
Qed.

(** C5 (as the code has it): for [X] neither active nor pending-add,
    [add_obj X] returns and stages [X]; [remove_obj X] right after it,
    before reconciliation, raises the assertion error ([X] is not active
    yet) and changes nothing; reconciliation then makes [X] active, and
    from there [remove_obj X] returns. *)
Theorem add_then_remove_spec (X : Obj) w :
  X ∉ _active_objs (game w) -> X ∉ _pending_adds (game w) ->
  exists w1 w2,
    add_obj X w = Ok tt w1
    /\ X ∈ _pending_adds (game w1)
    /\ remove_obj X w1 = Raised (AssertionError NotActive) w1
    /\ _execute_adds_and_removes w1 = Ok tt w2
    /\ X ∈ _active_objs (game w2)
    /\ is_raised (remove_obj X w2) = false
    /\ X ∈ _pending_removes (game (world_of (remove_obj X w2))).
Proof.
  intros Ha Hp. eexists _, _. split; [by apply add_obj_ok|].
  split; [simpl; set_solver|].
  split; [by apply remove_obj_not_active|].
  split; [apply execute_adds_and_removes_eq|].
  assert (Hin : X ∈ _active_objs (game (with_game reconciled
            (with_game (fun g => set_pending_adds (_pending_adds g ∪ {[X]}) g) w))))
    by (simpl; set_solver).
  split; [exact Hin|]. rewrite (remove_obj_ok _ _ Hin). simpl.
  split; [done | set_solver].
Qed.

(** ** Inverting a method that returned *)

Lemma bind_ok {A B} (m : M A) (k : A -> M B) w b w' :
  bind m k w = Ok b w' <-> exists a w1, m w = Ok a w1 /\ k a w1 = Ok b w'.
Proof.
  unfold bind. split.
  - destruct (m w) as [a w1|x w1]; [eauto | done].
  - intros (a & w1 & -> & Hk). exact Hk.
Qed.

(** The part of the world no callback can reach. *)
Definition sealed w : num * num * num * gset Obj * list Event :=
  (_wid (game w), _hei (game w), _frame_rate (game w),
   _active_objs (game w), calls w).

Lemma sealed_stable s : callback_stable (fun w => sealed w = s).
Proof. split; intros; assumption. Qed.

Lemma run_sealed {A} (p : Prog A) w : sealed (world_of (run p w)) = sealed w.
Proof. by apply (run_preserves (fun w' => sealed w' = sealed w) p (sealed_stable _)). Qed.

Lemma run_sealed_ok {A} (p : Prog A) w a w' :
  run p w = Ok a w' -> sealed w' = sealed w.
Proof. intros Hr. pose proof (run_sealed p w) as Hs. by rewrite Hr in Hs. Qed.

Lemma sealed_fields w w' :
  sealed w' = sealed w ->
  _wid (game w') = _wid (game w) /\ _hei (game w') = _hei (game w)
  /\ _frame_rate (game w') = _frame_rate (game w)
  /\ _active_objs (game w') = _active_objs (game w) /\ calls w' = calls w.
Proof. unfold sealed. intros [= -> -> -> -> ->]. done. Qed.

(** A call on an entity that returns adds its event to the log and leaves
    the rest of the sealed part alone. *)
Definition logged (evs : list Event) w w' : Prop :=
  _wid (game w') = _wid (game w) /\ _hei (game w') = _hei (game w)
  /\ _frame_rate (game w') = _frame_rate (game w)
  /\ _active_objs (game w') = _active_objs (game w)
  /\ calls w' = calls w ++ evs.

Lemma logged_refl w : logged [] w w.
Proof. unfold logged. by rewrite app_nil_r. Qed.

Lemma logged_trans (evs1 evs2 : list Event) w w1 w2 :
  logged evs1 w w1 -> logged evs2 w1 w2 -> logged (evs1 ++ evs2) w w2.
Proof.
  unfold logged. intros (-> & -> & -> & -> & E1) (-> & -> & -> & -> & E2).
  by rewrite E2, E1, app_assoc.
Qed.

Lemma run_emit_logged {A} (p : Prog A) (ev : A -> Event) w a w' :
  (let* a := run p in let* _ := emit (ev a) in ret a) w = Ok a w' ->
  logged [ev a] w w'.
Proof.
  intros (a1 & w1 & Hr & Hk)%bind_ok. simpl in Hk. injection Hk as <- <-.
  apply run_sealed_ok, sealed_fields in Hr as (? & ? & ? & ? & ?).
  unfold logged; simpl. by repeat split; try congruence.
Qed.

Lemma call_nearby_logged ent l r d w b w' :
  call_nearby ent l r d w = Ok b w' -> logged [CallNearby l r d b] w w'.
Proof. apply (run_emit_logged _ (CallNearby l r d)). Qed.

Lemma run_then_emit_logged (p : Prog unit) (ev : Event) w w' :
  (let* _ := run p in emit ev) w = Ok tt w' -> logged [ev] w w'.
Proof.
  intros (a1 & w1 & Hr & Hk)%bind_ok. simpl in Hk. injection Hk as <-.
  apply run_sealed_ok, sealed_fields in Hr as (? & ? & ? & ? & ?).
  unfold logged; simpl. by repeat split; try congruence.
Qed.

Lemma call_move_logged ent o w w' :
  call_move ent o w = Ok tt w' -> logged [CallMove o] w w'.
Proof. apply run_then_emit_logged. Qed.

Lemma call_edge_logged ent o side coord w w' :
  call_edge ent o side coord w = Ok tt w' -> logged [CallEdge o side coord] w w'.
Proof. apply run_then_emit_logged. Qed.

Lemma call_draw_logged ent o w w' :
  call_draw ent o w = Ok tt w' -> logged [CallDraw o] w w'.
Proof. apply run_then_emit_logged. Qed.

Lemma for_each_logged {A} (l : list A) (body : A -> M unit) (ev : A -> Event) :
  (forall x w w', body x w = Ok tt w' -> logged [ev x] w w') ->
  forall w w', for_each l body w = Ok tt w' -> logged (map ev l) w w'.
Proof.
  intros Hb. induction l as [|x l IH]; intros w w'; simpl.
  - intros [= <-]. apply logged_refl.
  - intros ([] & w1 & H1 & H2)%bind_ok.
    apply (logged_trans [ev x] (map ev l) w w1 w'); eauto.
Qed.

Lemma preserves_eq {A X} (f : World -> X) (m : M A) :
  (forall x, preserves (fun w => f w = x) m) ->
  forall w, f (world_of (m w)) = f w.
Proof. intros Hm w. by apply (Hm (f w)). Qed.

Lemma preserves_pair {A B C} P (k : A -> B -> M C) (p : A * B) :
  (forall a b, preserves P (k a b)) -> preserves P (let '(a, b) := p in k a b).
Proof. intros Hk. destruct p. apply Hk. Qed.

Ltac stable := split; intros; first [assumption | reflexivity].

Ltac head_of m :=
  lazymatch m with
  | ?f _ => head_of f
  | _ => m
  end.

Ltac keep :=
  cbv zeta;
  first
    [ assumption
    | lazymatch goal with
      | |- preserves _ (bind _ _) => apply preserves_bind; [keep | intros ?; keep]
      | |- preserves _ (for_each _ _) => apply preserves_for_each; intros ?; keep
      | |- preserves _ (fold_m _ _ _) => apply preserves_fold_m; intros ? ?; keep
      | |- preserves _ (when _ _) => apply preserves_when; keep
      | |- preserves _ (py_assert _ _) => apply preserves_assert
      | |- preserves _ (py_index _ _) => apply preserves_py_index
      | |- preserves _ (run _) => apply run_preserves; stable
      | |- preserves _ (config_set _ _) => apply config_set_preserves; stable
      | |- preserves _ (add_obj _) => apply add_obj_preserves; stable
      | |- preserves _ (remove_obj _) => apply remove_obj_preserves; stable
      | |- preserves _ (if ?c then _ else _) => destruct c; keep
      | |- preserves _ (match ?p with (_, _) => _ end) => destruct p; keep
      | |- preserves _ (nearby_block _ _ _ ?b) =>
          let IH := fresh "IH" in
          induction b as [|[[? ?] ?] ? IH]; simpl nearby_block; [keep | keep]
      | |- preserves _ ?m =>
          first [ intros ? ?; first [assumption | reflexivity]
                | let h := head_of m in unfold h; keep ]
      end ].

(** ** Drawing *)

Lemma draw_unfold ent w :
  draw ent w
  = let w1 := with_game reconciled w in
    if is_killed (_win (game w1)) then Ok tt (with_game (set__game_over true) w1)
    else (let* _ := win_clear in
          let* g := get_game in
          let* _ := for_each (elements (_active_objs g)) (call_draw ent) in
          let* g := get_game in
          win_update_frame (_frame_rate g)) w1.
Proof. unfold draw, bind at 1 2. simpl. by destruct (is_killed _). Qed.

Lemma draw_active ent w :
  _active_objs (game (world_of (draw ent w)))
  = _active_objs (reconciled (game w)).
Proof.
  rewrite draw_unfold. cbv zeta. destruct (is_killed _); [done|].
  apply (preserves_eq (fun w => _active_objs (game w))). intros x. keep.
Qed.

(** C9: [draw] reconciles first; if the window is then dead it returns
    (no exception) with the game-over flag set, having made no call at
    all -- no [clear], no entity [draw], no [update_frame] -- and with the
    reconciliation still applied.  When the window is alive and [draw]
    returns, it has cleared the window, drawn the reconciled active set
    and presented the frame, in this order. *)
Theorem draw_spec ent w :
  let g1 := reconciled (game w) in
  (is_killed (_win (game w)) = true ->
     draw ent w = Ok tt (mkWorld (set__game_over true g1) (user w) (calls w))
     /\ _game_over (game (world_of (draw ent w))) = true
     /\ calls (world_of (draw ent w)) = calls w
     /\ _win (game (world_of (draw ent w))) = _win (game w)
     /\ _active_objs (game (world_of (draw ent w)))
        = (_active_objs (game w) ∖ _pending_removes (game w)) ∪ _pending_adds (game w)
     /\ _pending_removes (game (world_of (draw ent w))) = ∅
     /\ _pending_adds (game (world_of (draw ent w))) = ∅)
  /\ (is_killed (_win (game w)) = false ->
      forall w', draw ent w = Ok tt w' ->
        calls w' = calls w ++ [WinClear]
                     ++ map CallDraw (elements (_active_objs g1))
                     ++ [WinUpdateFrame (_frame_rate (game w))])
  /\ _active_objs (game (world_of (draw ent w))) = _active_objs g1.
Proof.
  cbv zeta. split_and!.
  - intros Hk. rewrite draw_unfold. cbv zeta. simpl. rewrite Hk. done.
  - intros Hk w'. rewrite draw_unfold. cbv zeta. simpl. rewrite Hk.
    intros ([] & w1 & [= <-] & H2)%bind_ok.
    apply bind_ok in H2 as (g & w2 & [= <- <-] & H2).
    apply bind_ok in H2 as ([] & w3 & H2 & H3).
    apply bind_ok in H3 as (g3 & w4 & [= <- <-] & H3).
    injection H3 as <-.
    apply (for_each_logged _ _ CallDraw (call_draw_logged ent)) in H2
      as (_ & _ & Hr & _ & Hc).
    simpl in *. rewrite Hc, Hr. by rewrite <- !app_assoc.
  - apply draw_active.
Qed.

(** ** The game-over flag *)

Definition over w : Prop := _game_over (game w) = true.

Lemma exec_preserves_over ent op : preserves over (exec ent op).
Proof. destruct op; unfold exec, over; keep. Qed.

(** C10: the constructor is the only place that makes the flag false;
    once it is true, it is true after any sequence of engine operations
    (configuration, [add_obj], [remove_obj], reconciliation, the three
    dispatch phases and [draw]), whether they return or raise. *)
Theorem game_over_monotone ent :
  (forall title frame_rate wid hei,
      _game_over (Game_init title frame_rate wid hei) = false)
  /\ (forall op w, _game_over (game w) = true ->
        _game_over (game (world_of (exec ent op w))) = true)
  /\ (forall ops w, _game_over (game w) = true ->
        _game_over (game (exec_all ent ops w)) = true).
Proof.
  split_and!.
  - done.
  - intros op w. apply (exec_preserves_over ent op).
  - intros ops. induction ops as [|op ops IH]; intros w Hw; simpl; [done|].
    apply IH. by apply (exec_preserves_over ent op).
Qed.

(** ** Boundary *)

(** The edge calls an entity at [(x, y)] with radius [rad] is owed. *)
Definition edge_events (wid hei : num) o (x y rad : num) : list Event :=
  (if num_ltb x rad then [CallEdge o "left" num_zero] else [])
  ++ (if num_ltb y rad then [CallEdge o "top" num_zero] else [])
  ++ (if num_geb (num_add x rad) wid then [CallEdge o "right" wid] else [])
  ++ (if num_geb (num_add y rad) hei then [CallEdge o "bottom" hei] else []).

Definition edge_events_at ent w o : list Event :=
  let '(x, y) := get_xy ent o (user w) in
  edge_events (_wid (game w)) (_hei (game w)) o x y (get_radius ent o (user w)).

Lemma when_logged c (body : M unit) (ev : Event) w w' :
  (body w = Ok tt w' -> logged [ev] w w') ->
  when c body w = Ok tt w' -> logged (if c then [ev] else []) w w'.
Proof.
  intros Hb. destruct c; simpl; [apply Hb|]. intros [= <-]. apply logged_refl.
Qed.

Lemma edge_calls_for_logged ent o w w' :
  edge_calls_for ent o w = Ok tt w' -> logged (edge_events_at ent w o) w w'.
Proof.
  unfold edge_calls_for, edge_events_at.
  intros (u & w0 & [= <- <-] & Hb)%bind_ok. revert Hb.
  destruct (get_xy ent o (user w)) as [x y].
  intros (u & w0 & [= <- <-] & Hb)%bind_ok.
  apply bind_ok in Hb as ([] & w1 & H1 & Hb).
  apply bind_ok in Hb as ([] & w2 & H2 & Hb).
  apply bind_ok in Hb as (g2 & w2' & [= <- <-] & Hb).
  apply bind_ok in Hb as ([] & w3 & H3 & Hb).
  apply bind_ok in Hb as (g3 & w3' & [= <- <-] & H4).
  apply (when_logged _ _ (CallEdge o "left" num_zero)) in H1;
    [|apply call_edge_logged].
  apply (when_logged _ _ (CallEdge o "top" num_zero)) in H2;
    [|apply call_edge_logged].
  apply (when_logged _ _ (CallEdge o "right" (_wid (game w2)))) in H3;
    [|intros (g & wc & [= <- <-] & Hc)%bind_ok; revert Hc; apply call_edge_logged].
  apply (when_logged _ _ (CallEdge o "bottom" (_hei (game w3)))) in H4;
    [|intros (g & wc & [= <- <-] & Hc)%bind_ok; revert Hc; apply call_edge_logged].
  pose proof (logged_trans _ _ _ _ _ H1 H2) as H12.
  pose proof (logged_trans _ _ _ _ _ H12 H3) as H123.
  pose proof (logged_trans _ _ _ _ _ H123 H4) as H1234.
  destruct H12 as (Hw2 & Hh2 & _). destruct H123 as (Hw3 & Hh3 & _).
  rewrite Hw2, Hh3 in H1234. unfold edge_events.
  by rewrite <- !app_assoc in H1234.
Qed.

Lemma edge_events_iff (wid hei : num) o (x y rad : num) :
  (CallEdge o "left" num_zero ∈ edge_events wid hei o x y rad
     <-> num_ltb x rad = true)
  /\ (CallEdge o "top" num_zero ∈ edge_events wid hei o x y rad
     <-> num_ltb y rad = true)
  /\ (CallEdge o "right" wid ∈ edge_events wid hei o x y rad
     <-> num_geb (num_add x rad) wid = true)
  /\ (CallEdge o "bottom" hei ∈ edge_events wid hei o x y rad
     <-> num_geb (num_add y rad) hei = true).
Proof.
  unfold edge_events.
  destruct (num_ltb x rad), (num_ltb y rad),
    (num_geb (num_add x rad) wid), (num_geb (num_add y rad) hei); simpl;
    split_and!; (split; [intros Hin | intros Hb]); try done;
    repeat (apply elem_of_cons in Hin as [Hin|Hin]; [discriminate Hin|]);
    try (by apply elem_of_nil in Hin);
    repeat first [ apply list_elem_of_here | apply list_elem_of_further ].
Qed.

Lemma edge_events_order (wid hei : num) o (x y rad : num) :
  edge_events wid hei o x y rad
  `sublist_of` [CallEdge o "left" num_zero; CallEdge o "top" num_zero;
                CallEdge o "right" wid; CallEdge o "bottom" hei].
Proof.
  unfold edge_events.
  destruct (num_ltb x rad), (num_ltb y rad),
    (num_geb (num_add x rad) wid), (num_geb (num_add y rad) hei); simpl;
    repeat first [ apply sublist_nil | apply sublist_skip; [] | apply sublist_cons ];
    repeat first [ apply sublist_nil | apply sublist_cons | apply sublist_skip ].
Qed.

Lemma edge_loop_logged ent (objs : list Obj) w w' :
  for_each objs (edge_calls_for ent) w = Ok tt w' ->
  exists ws : list World,
    length ws = length objs
    /\ (forall w0, head ws = Some w0 -> w0 = w)
    /\ Forall (fun wk => _wid (game wk) = _wid (game w)
                         /\ _hei (game wk) = _hei (game w)) ws
    /\ logged (concat (zip_with (fun o wk => edge_events_at ent wk o) objs ws)) w w'.
Proof.
  revert w. induction objs as [|o objs IH]; intros w; simpl.
  - intros [= <-]. exists []. split_and!; try done. apply logged_refl.
  - intros ([] & w1 & H1 & H2)%bind_ok.
    apply edge_calls_for_logged in H1.
    destruct (IH _ H2) as (ws & Hlen & _ & Hall & Hlog).
    exists (w :: ws). simpl. split_and!.
    + by rewrite Hlen.
    + by intros w0 [= <-].
    + constructor; [done|]. destruct H1 as (Hw & Hh & _).
      eapply Forall_impl; [exact Hall|]. simpl. intros wk [-> ->]. done.
    + by apply (logged_trans _ _ w w1 w').
Qed.

(** C7: for an entity at [(x, y)] with radius [rad], the boundary phase
    calls [edge("left", 0)] iff [x < rad], [edge("top", 0)] iff [y < rad],
    [edge("right", wid)] iff [x + rad >= wid] and [edge("bottom", hei)]
    iff [y + rad >= hei]; each test stands alone, and the calls an entity
    gets come in the order left, top, right, bottom.  A pass that returns
    has made exactly these calls, entity by entity, for every active
    entity once, each with its position and radius as read at its turn. *)
Theorem do_edge_calls_spec ent :
  (forall (wid hei : num) o (x y rad : num),
      (CallEdge o "left" num_zero ∈ edge_events wid hei o x y rad
         <-> num_ltb x rad = true)
      /\ (CallEdge o "top" num_zero ∈ edge_events wid hei o x y rad
         <-> num_ltb y rad = true)
      /\ (CallEdge o "right" wid ∈ edge_events wid hei o x y rad
         <-> num_geb (num_add x rad) wid = true)
      /\ (CallEdge o "bottom" hei ∈ edge_events wid hei o x y rad
         <-> num_geb (num_add y rad) hei = true)
      /\ edge_events wid hei o x y rad
         `sublist_of` [CallEdge o "left" num_zero; CallEdge o "top" num_zero;
                       CallEdge o "right" wid; CallEdge o "bottom" hei])
  /\ (forall o w w',
        edge_calls_for ent o w = Ok tt w' ->
        calls w' = calls w ++ edge_events_at ent w o)
  /\ (forall w w',
        do_edge_calls ent w = Ok tt w' ->
        let objs := elements (_active_objs (game w)) in
        NoDup objs /\ (forall o, o ∈ objs <-> o ∈ _active_objs (game w))
        /\ exists ws : list World,
            length ws = length objs
            /\ (forall w0, head ws = Some w0 -> w0 = w)
            /\ Forall (fun wk => _wid (game wk) = _wid (game w)
                                 /\ _hei (game wk) = _hei (game w)) ws
            /\ calls w'
               = calls w
                 ++ concat (zip_with (fun o wk => edge_events_at ent wk o) objs ws)).
Proof.
  split_and!.
  - intros wid hei o x y rad.
    destruct (edge_events_iff wid hei o x y rad) as (? & ? & ? & ?).
    split_and!; try done. apply edge_events_order.
  - intros o w w' Hr. by apply edge_calls_for_logged in Hr as (_ & _ & _ & _ & ?).
  - intros w w' Hr. cbv zeta. split_and!.
    + apply NoDup_elements.
    + intros o. apply elem_of_elements.
    + unfold do_edge_calls in Hr. apply bind_ok in Hr as (g & w0 & [= <- <-] & Hr).
      apply edge_loop_logged in Hr as (ws & Hlen & Hhd & Hall & Hlog).
      exists ws. split_and!; try done. by destruct Hlog as (_ & _ & _ & _ & ?).
Qed.

(** ** The order on records *)

(** Lexicographic order on [(left index, distance, right index)]. *)
Definition entry_lex (a b : entry (num:=num)) : Prop :=
  let '(i1, d1, j1) := a in
  let '(i2, d2, j2) := b in
  i1 < i2
  \/ (i1 = i2 /\ (num_ltb d1 d2 = true \/ (d1 = d2 /\ j1 < j2))).

(** [a <= b] as the sort sees it: not [b < a]. *)
Definition entry_le (a b : entry (num:=num)) : Prop := entry_ltb b a = false.

Definition left_of (a : entry (num:=num)) : nat := a.1.1.
Definition dist_of (a : entry (num:=num)) : num := a.1.2.
Definition right_of (a : entry (num:=num)) : nat := a.2.

(** [list.sort] rearranges. *)
Lemma sort_insert_perm (x : entry) l : sort_insert x l ≡ₚ x :: l.
Proof.
  induction l as [|y l IH]; simpl; [done|].
  destruct (entry_ltb x y); [done|]. rewrite IH. apply perm_swap.
Qed.

Lemma list_sort_from_perm (l acc : list entry) :
  fold_left (fun acc x => sort_insert x acc) l acc ≡ₚ acc ++ l.
Proof.
  revert acc. induction l as [|x l IH]; intros acc; simpl.
  - by rewrite app_nil_r.
  - rewrite IH, sort_insert_perm. simpl. apply Permutation_middle.
Qed.

Lemma list_sort_perm (l : list entry) : list_sort l ≡ₚ l.
Proof. unfold list_sort. by rewrite list_sort_from_perm. Qed.

Section Sorting.

Context {HO : NumberOrder num}.

Lemma num_eqb_neq (a b : num) : num_eqb a b = false <-> a <> b.
Proof.
  split.
  - intros Hf Heq. apply num_eqb_eq in Heq. congruence.
  - intros Hne. destruct (num_eqb a b) eqn:E; [|done]. by apply num_eqb_eq in E.
Qed.

Lemma num_ltb_asym (a b : num) : num_ltb a b = true -> num_ltb b a = false.
Proof.
  intros Hab. destruct (num_ltb b a) eqn:E; [|done].
  pose proof (num_ltb_trans _ _ _ Hab E) as Haa. by rewrite num_ltb_irrefl in Haa.
Qed.

Lemma num_trichotomy (a b : num) :
  num_ltb a b = true \/ a = b \/ num_ltb b a = true.
Proof.
  destruct (num_ltb a b) eqn:E1; [by left|].
  destruct (num_ltb b a) eqn:E2; [by right; right|].
  right; left. by apply num_ltb_total.
Qed.

(** Python's tuple comparison is the lexicographic order. *)
Lemma entry_ltb_lex (a b : entry) : entry_ltb a b = true <-> entry_lex a b.
Proof.
  destruct a as [[i1 d1] j1], b as [[i2 d2] j2]. unfold entry_ltb, entry_lex.
  destruct (Nat.eqb_spec i1 i2) as [->|Hi]; simpl.
  - destruct (num_eqb d1 d2) eqn:Ed; simpl.
    + apply num_eqb_eq in Ed as ->. rewrite Nat.ltb_lt. split.
      * intros Hj. right. split; [done|]. right. done.
      * intros [Hlt|[_ [Hd|[_ Hj]]]]; [lia| |done].
        by rewrite num_ltb_irrefl in Hd.
    + apply num_eqb_neq in Ed. split.
      * intros Hd. right. split; [done|]. by left.
      * intros [Hlt|[_ [Hd|[Hd _]]]]; [lia|done|done].
  - rewrite Nat.ltb_lt. split; [by left|]. intros [Hlt|[Heq _]]; [done|lia].
Qed.

Lemma entry_lex_irrefl (a : entry) : ~ entry_lex a a.
Proof.
  destruct a as [[i d] j]. unfold entry_lex.
  intros [Hlt|[_ [Hd|[_ Hj]]]]; [lia| |lia]. by rewrite num_ltb_irrefl in Hd.
Qed.

Lemma entry_lex_trans (a b c : entry) :
  entry_lex a b -> entry_lex b c -> entry_lex a c.
Proof.
  destruct a as [[i1 d1] j1], b as [[i2 d2] j2], c as [[i3 d3] j3].
  unfold entry_lex.
  intros [Hab|[-> Hab]] [Hbc|[-> Hbc]]; [left; lia|by left|by left|].
  right. split; [done|].
  destruct Hab as [Hab|[-> Hab]], Hbc as [Hbc|[-> Hbc]].
  - left. by eapply num_ltb_trans.
  - by left.
  - by left.
  - right. split; [done|lia].
Qed.

Lemma entry_lex_total (a b : entry) : entry_lex a b \/ a = b \/ entry_lex b a.
Proof.
  destruct a as [[i1 d1] j1], b as [[i2 d2] j2]. unfold entry_lex.
  destruct (lt_eq_lt_dec i1 i2) as [[Hi| ->]|Hi];
    [by left; left| |by right; right; left].
  destruct (num_trichotomy d1 d2) as [Hd|[->|Hd]].
  - left. right. split; [done|]. by left.
  - destruct (lt_eq_lt_dec j1 j2) as [[Hj| ->]|Hj].
    + left. right. split; [done|]. right. done.
    + right. by left.
    + right. right. right. split; [done|]. right. done.
  - right. right. right. split; [done|]. by left.
Qed.

Lemma entry_le_lex (a b : entry) : entry_le a b <-> a = b \/ entry_lex a b.
Proof.
  unfold entry_le. split.
  - intros Hba. destruct (entry_lex_total a b) as [?|[?|Hlt]]; [by right|by left|].
    apply entry_ltb_lex in Hlt. congruence.
  - intros Hab. destruct (entry_ltb b a) eqn:E; [|done].
    apply entry_ltb_lex in E. destruct Hab as [->|Hab].
    + by apply entry_lex_irrefl in E.
    + destruct (entry_lex_irrefl a). by eapply entry_lex_trans.
Qed.

Lemma entry_le_trans (a b c : entry) : entry_le a b -> entry_le b c -> entry_le a c.
Proof.
  rewrite !entry_le_lex. intros [->|Hab] [->|Hbc]; auto.
  right. by eapply entry_lex_trans.
Qed.

Lemma entry_le_total (a b : entry) : entry_le a b \/ entry_le b a.
Proof.
  rewrite !entry_le_lex.
  destruct (entry_lex_total a b) as [?|[?|?]]; auto.
Qed.

Lemma entry_le_antisym (a b : entry) : entry_le a b -> entry_le b a -> a = b.
Proof.
  rewrite !entry_le_lex. intros [->|Hab] [?|Hba]; auto.
  destruct (entry_lex_irrefl a). by eapply entry_lex_trans.
Qed.

(** *** [list.sort] sorts *)

Lemma sort_insert_sorted (x : entry) l :
  StronglySorted entry_le l -> StronglySorted entry_le (sort_insert x l).
Proof.
  induction 1 as [|y l Hl IH Hy]; simpl.
  - repeat constructor.
  - destruct (entry_ltb x y) eqn:E.
    + assert (Hxy : entry_le x y).
      { apply entry_le_lex. right. by apply entry_ltb_lex. }
      constructor; [by constructor|]. constructor; [done|].
      eapply Forall_impl; [exact Hy|]. intros z Hz. by eapply entry_le_trans.
    + constructor; [done|].
      rewrite (sort_insert_perm x l). constructor; [exact E|done].
Qed.

Lemma list_sort_from_sorted (l acc : list entry) :
  StronglySorted entry_le acc ->
  StronglySorted entry_le (fold_left (fun acc x => sort_insert x acc) l acc).
Proof.
  revert acc. induction l as [|x l IH]; intros acc Hacc; simpl; [done|].
  by apply IH, sort_insert_sorted.
Qed.

Lemma list_sort_sorted (l : list entry) : StronglySorted entry_le (list_sort l).
Proof. apply list_sort_from_sorted. constructor. Qed.

(** The sorted arrangement is unique, so any correct sort gives the same
    list as [list_sort]. *)
Lemma sorted_perm_unique (l1 l2 : list entry) :
  StronglySorted entry_le l1 -> StronglySorted entry_le l2 -> l1 ≡ₚ l2 -> l1 = l2.
Proof.
  intros H1. revert l2. induction H1 as [|x l1 Hl1 IH Hx]; intros l2 H2 Hp.
  - by apply Permutation_nil in Hp.
  - destruct H2 as [|y l2 Hl2 Hy].
    + symmetry in Hp. by apply Permutation_nil in Hp.
    + assert (x = y) as ->.
      { apply entry_le_antisym.
        - assert (Hin : y ∈ x :: l1) by (rewrite Hp; left).
          apply elem_of_cons in Hin as [->|Hin]; [by apply entry_le_lex; left|].
          by eapply Forall_forall in Hx.
        - assert (Hin : x ∈ y :: l2) by (rewrite <- Hp; left).
          apply elem_of_cons in Hin as [->|Hin]; [by apply entry_le_lex; left|].
          by eapply Forall_forall in Hy. }
      f_equal. apply IH; [done|]. by apply Permutation_cons_inv in Hp.
Qed.

End Sorting.

(** ** The records of a pass *)

Definition positions_of ent (u : US) (objs : list Obj) : list (position (num:=num)) :=
  map (fun o => let '(x, y) := get_xy ent o u in (o, x, y)) objs.

(** The distance [pair_dist] computes. *)
Definition pair_dist_value ent (acc : bool) (u : US)
    (p1 p2 : position (num:=num)) : num :=
  let '(o1, x1, y1) := p1 in
  let '(o2, x2, y2) := p2 in
  if acc
  then num_sub (num_sub (euclid x1 y1 x2 y2) (get_radius ent o1 u))
               (get_radius ent o2 u)
  else euclid x1 y1 x2 y2.

Definition dist_at ent (acc : bool) (u : US) (positions : list position)
    (i j : nat) : num :=
  match positions !! i, positions !! j with
  | Some p1, Some p2 => pair_dist_value ent acc u p1 p2
  | _, _ => num_zero
  end.

(** The two records of the pair [i < j]. *)
Definition pair_records (d : nat -> nat -> num) (i j : nat) : list entry :=
  [(i, d i j, j); (j, d i j, i)].

(** The list the double loop builds, for [n] positions. *)
Definition records (d : nat -> nat -> num) (n : nat) : list entry :=
  flat_map (fun i => flat_map (pair_records d i) (seq (i + 1) (n - (i + 1))))
           (seq 0 n).

Lemma snapshot_eq ent objs w :
  snapshot ent objs w = Ok (positions_of ent (user w) objs) w.
Proof. reflexivity. Qed.

Lemma pair_dist_eq ent p1 p2 w :
  pair_dist ent p1 p2 w
  = Ok (pair_dist_value ent (_account_for_radii_in_dist (game w)) (user w) p1 p2) w.
Proof.
  destruct p1 as [[o1 x1] y1], p2 as [[o2 x2] y2].
  unfold pair_dist, pair_dist_value, bind, get_game.
  by destruct (_account_for_radii_in_dist (game w)).
Qed.

Lemma fold_m_pure {A B} (l : list A) (body : B -> A -> M B) (f : B -> A -> B) w :
  (forall b x, x ∈ l -> body b x w = Ok (f b x) w) ->
  forall b, fold_m l body b w = Ok (fold_left f l b) w.
Proof.
  induction l as [|x l IH]; simpl; intros Hb b; [done|].
  unfold bind. rewrite Hb by left. apply IH. intros b' y Hy. apply Hb. by right.
Qed.

Lemma fold_left_append {A B} (g : A -> list B) (l : list A) (b : list B) :
  fold_left (fun acc x => acc ++ g x) l b = b ++ flat_map g l.
Proof.
  revert b. induction l as [|x l IH]; intros b; simpl.
  - by rewrite app_nil_r.
  - by rewrite IH, app_assoc.
Qed.

Lemma py_index_eq {A} (l : list A) i (a : A) w :
  l !! i = Some a -> py_index l i w = Ok a w.
Proof. unfold py_index. by intros ->. Qed.

Lemma build_distances_eq ent (positions : list position) w :
  build_distances ent positions w
  = Ok (records (dist_at ent (_account_for_radii_in_dist (game w)) (user w) positions)
                (length positions)) w.
Proof.
  unfold build_distances, records.
  set (d := dist_at ent _ _ positions). set (n := length positions).
  rewrite (fold_m_pure _ _
    (fun acc i => acc ++ flat_map (pair_records d i) (seq (i + 1) (n - (i + 1))))).
  - by rewrite fold_left_append.
  - intros acc i Hi. apply elem_of_seq in Hi.
    rewrite (fold_m_pure _ _ (fun acc j => acc ++ pair_records d i j)).
    + by rewrite fold_left_append.
    + intros acc' j Hj. apply elem_of_seq in Hj.
      destruct (lookup_lt_is_Some_2 positions i) as [p1 Hp1]; [lia|].
      destruct (lookup_lt_is_Some_2 positions j) as [p2 Hp2]; [lia|].
      unfold bind. rewrite (py_index_eq _ _ _ _ Hp1), (py_index_eq _ _ _ _ Hp2).
      rewrite pair_dist_eq. unfold pair_records, d, dist_at. by rewrite Hp1, Hp2.
Qed.

(** Adding one position adds the pairs [(i, n)]. *)
Lemma flat_map_app_perm {A B} (f g : A -> list B) (l : list A) :
  flat_map (fun x => f x ++ g x) l ≡ₚ flat_map f l ++ flat_map g l.
Proof.
  induction l as [|x l IH]; simpl; [done|].
  rewrite IH. rewrite <- !app_assoc. apply Permutation_app_head.
  rewrite !app_assoc. apply Permutation_app_tail. apply Permutation_app_comm.
Qed.

Lemma flat_map_ext_in {A B} (f g : A -> list B) (l : list A) :
  (forall x, x ∈ l -> f x = g x) -> flat_map f l = flat_map g l.
Proof.
  induction l as [|x l IH]; simpl; intros Hfg; [done|].
  rewrite Hfg by left. f_equal. apply IH. intros y Hy. apply Hfg. by right.
Qed.

Lemma records_S (d : nat -> nat -> num) n :
  records d (S n) ≡ₚ records d n ++ flat_map (fun i => pair_records d i n) (seq 0 n).
Proof.
  unfold records. rewrite seq_S, flat_map_app. cbn [flat_map]. rewrite Nat.add_0_l.
  replace (S n - (n + 1)) with 0 by lia. cbn [seq flat_map]. rewrite !app_nil_r.
  rewrite <- flat_map_app_perm.
  rewrite (flat_map_ext_in _
    (fun i => flat_map (pair_records d i) (seq (i + 1) (n - (i + 1)))
              ++ pair_records d i n)); [reflexivity|].
  intros i Hi. apply elem_of_seq in Hi.
  replace (S n - (i + 1)) with (S (n - (i + 1))) by lia.
  rewrite seq_S, flat_map_app. cbn [flat_map].
  replace (i + 1 + (n - (i + 1))) with n by lia. by rewrite app_nil_r.
Qed.

Lemma elem_of_flat_map {A B} (f : A -> list B) (l : list A) (b : B) :
  b ∈ flat_map f l <-> exists a, a ∈ l /\ b ∈ f a.
Proof.
  induction l as [|x l IH]; simpl.
  - split; [by intros ?%elem_of_nil | by intros (a & ?%elem_of_nil & _)].
  - rewrite elem_of_app, IH. split.
    + intros [Hb|(a & Ha & Hb)]; [exists x | exists a]; split; try done;
        [by left | by right].
    + intros (a & [->|Ha]%elem_of_cons & Hb); [by left | right; by exists a].
Qed.

Lemma elem_of_pair_records (d : nat -> nat -> num) i j (a : entry) :
  a ∈ pair_records d i j <-> a = (i, d i j, j) \/ a = (j, d i j, i).
Proof.
  unfold pair_records. rewrite !elem_of_cons, elem_of_nil. tauto.
Qed.

(** Exactly the two records of every pair [i < j < n]. *)
Lemma elem_of_records (d : nat -> nat -> num) n (a : entry) :
  a ∈ records d n
  <-> exists i j, i < j < n /\ (a = (i, d i j, j) \/ a = (j, d i j, i)).
Proof.
  unfold records. rewrite elem_of_flat_map. split.
  - intros (i & Hi & Ha). apply elem_of_flat_map in Ha as (j & Hj & Ha).
    apply elem_of_seq in Hi, Hj. apply elem_of_pair_records in Ha.
    exists i, j. split; [lia|done].
  - intros (i & j & Hij & Ha). exists i. split; [apply elem_of_seq; lia|].
    apply elem_of_flat_map. exists j. split; [apply elem_of_seq; lia|].
    by apply elem_of_pair_records.
Qed.

Lemma records_bounds (d : nat -> nat -> num) n (a : entry) :
  a ∈ records d n -> left_of a < n /\ right_of a < n /\ left_of a <> right_of a.
Proof.
  intros (i & j & Hij & [->| ->])%elem_of_records; unfold left_of, right_of; simpl; lia.
Qed.

Lemma flat_map_length_const {A B} (f : A -> list B) (l : list A) k :
  (forall x, length (f x) = k) -> length (flat_map f l) = k * length l.
Proof.
  intros Hf. induction l as [|x l IH]; simpl; [lia|].
  rewrite length_app, Hf, IH. lia.
Qed.

(** The count the source asserts. *)
Lemma records_length (d : nat -> nat -> num) n : length (records d n) = n * (n - 1).
Proof.
  induction n as [|n IH]; [done|].
  rewrite (Permutation_length (records_S d n)), length_app, IH.
  rewrite (flat_map_length_const _ _ 2) by done. rewrite length_seq.
  replace (S n - 1) with n by lia. destruct n; simpl; lia.
Qed.

(** The new pairs [(k, n)], [k] in [a .. a+m). *)
Lemma NoDup_new_pairs (d : nat -> nat -> num) n a m :
  a + m <= n -> NoDup (flat_map (fun i => pair_records d i n) (seq a m)).
Proof.
  revert a. induction m as [|m IH]; intros a Ham; simpl; [constructor|].
  assert (Hfresh : forall x : entry,
             x ∈ flat_map (fun i => pair_records d i n) (seq (S a) m) ->
             left_of x <> a /\ right_of x <> a).
  { intros x (k & Hk & Hx)%elem_of_flat_map. apply elem_of_seq in Hk.
    apply elem_of_pair_records in Hx as [->| ->]; unfold left_of, right_of; simpl; lia. }
  constructor.
  - rewrite elem_of_cons. intros [Heq|Hin]; [injection Heq; lia|].
    apply Hfresh in Hin. unfold left_of in Hin; simpl in Hin. lia.
  - constructor; [|apply IH; lia].
    intros Hin. apply Hfresh in Hin. unfold right_of in Hin; simpl in Hin. lia.
Qed.

Lemma records_NoDup (d : nat -> nat -> num) n : NoDup (records d n).
Proof.
  induction n as [|n IH]; [constructor|].
  rewrite (records_S d n). apply NoDup_app. split_and!; [done| |].
  - intros x Hold (k & Hk & Hx)%elem_of_flat_map.
    apply records_bounds in Hold as (Hl & Hr & _). apply elem_of_seq in Hk.
    apply elem_of_pair_records in Hx as [->| ->];
      unfold left_of, right_of in *; simpl in *; lia.
  - apply NoDup_new_pairs. lia.
Qed.

Lemma filter_none {A} (P : A -> Prop) `{!forall x, Decision (P x)} (l : list A) :
  Forall (fun x => ~ P x) l -> filter P l = [].
Proof.
  induction 1 as [|x l Hx _ IH]; [done|]. by rewrite filter_cons_False.
Qed.

Lemma filter_all {A} (P : A -> Prop) `{!forall x, Decision (P x)} (l : list A) :
  Forall P l -> filter P l = l.
Proof.
  induction 1 as [|x l Hx _ IH]; [done|]. rewrite filter_cons_True by done.
  by f_equal.
Qed.

Lemma Forall_filter_keep {A} (P Q : A -> Prop) `{!forall x, Decision (P x)}
    (l : list A) :
  Forall Q l -> Forall Q (filter P l).
Proof.
  intros HQ. apply Forall_forall. intros x [_ Hx]%list_elem_of_filter.
  by eapply Forall_forall in HQ.
Qed.

(** How many records have [i] on the left. *)
Definition left_count (i : nat) (l : list (entry (num:=num))) : nat :=
  length (filter (fun a => left_of a = i) l).

Lemma left_count_app i (l1 l2 : list entry) :
  left_count i (l1 ++ l2) = left_count i l1 + left_count i l2.
Proof. unfold left_count. by rewrite filter_app, length_app. Qed.

Lemma left_count_perm i (l1 l2 : list entry) :
  l1 ≡ₚ l2 -> left_count i l1 = left_count i l2.
Proof. unfold left_count. by intros ->. Qed.

Lemma left_count_new_pairs (d : nat -> nat -> num) n i a m :
  a + m <= n ->
  left_count i (flat_map (fun k => pair_records d k n) (seq a m))
  = if decide (i = n) then m
    else if decide (a <= i < a + m) then 1 else 0.
Proof.
  revert a. induction m as [|m IH]; intros a Ham.
  - simpl. repeat case_decide; try done; lia.
  - cbn [seq flat_map]. rewrite left_count_app, IH by lia.
    unfold left_count, pair_records. rewrite !filter_cons. unfold left_of; simpl.
    repeat case_decide; simpl; lia.
Qed.

Lemma records_left_count (d : nat -> nat -> num) n i :
  i < n -> left_count i (records d n) = n - 1.
Proof.
  induction n as [|n IH]; intros Hi; [lia|].
  rewrite (left_count_perm _ _ _ (records_S d n)), left_count_app.
  rewrite left_count_new_pairs by lia.
  destruct (decide (i = n)) as [->|Hne].
  - assert (left_count n (records d n) = 0) as ->; [|lia].
    unfold left_count. rewrite filter_none; [done|].
    apply Forall_forall. intros x Hx%records_bounds. lia.
  - rewrite IH by lia. case_decide; lia.
Qed.

(** ** Blocks *)

(** The slice the dispatch walks for the left-hand index [i]. *)
Definition block (n : nat) (ds : list (entry (num:=num))) (i : nat) : list entry :=
  py_slice ds ((n - 1) * i) ((n - 1) * (i + 1)).

Definition left_le (a b : entry (num:=num)) : Prop := left_of a <= left_of b.

Lemma entry_le_left (a b : entry) : entry_le a b -> left_le a b.
Proof.
  destruct a as [[i1 d1] j1], b as [[i2 d2] j2].
  unfold entry_le, entry_ltb, left_le, left_of. simpl.
  destruct (Nat.eqb_spec i2 i1) as [->|Hne]; simpl; [lia|].
  intros Hlt%Nat.ltb_ge. lia.
Qed.

Lemma StronglySorted_impl {A} (R1 R2 : A -> A -> Prop) (l : list A) :
  (forall x y, R1 x y -> R2 x y) -> StronglySorted R1 l -> StronglySorted R2 l.
Proof.
  intros HR. induction 1 as [|x l Hl IH Hx]; constructor; [done|].
  eapply Forall_impl; [exact Hx|]. apply HR.
Qed.

(** In a list sorted by left index, the records of the least index come
    first. *)
Lemma left_sorted_split (l : list entry) a :
  StronglySorted left_le l -> Forall (fun x => a <= left_of x) l ->
  l = filter (fun x => left_of x = a) l ++ filter (fun x => left_of x <> a) l.
Proof.
  induction 1 as [|x l Hl IH Hx]; intros Ha; [done|].
  apply Forall_cons in Ha as [Hxa Ha].
  rewrite !filter_cons. destruct (decide (left_of x = a)) as [Heq|Hne].
  - rewrite decide_False by tauto. simpl. f_equal. by apply IH.
  - rewrite decide_True by done.
    assert (Hall : Forall (fun y => left_of y <> a) l).
    { eapply Forall_impl; [exact Hx|]. unfold left_le. simpl. lia. }
    rewrite (filter_none (fun y => left_of y = a)), filter_all; [done|done|].
    eapply Forall_impl; [exact Hall|]. simpl. tauto.
Qed.

Lemma left_sorted_blocks (l : list entry) a m :
  StronglySorted left_le l -> Forall (fun x => a <= left_of x < a + m) l ->
  l = flat_map (fun i => filter (fun x => left_of x = i) l) (seq a m).
Proof.
  revert l a. induction m as [|m IH]; intros l a Hs Hb; simpl.
  - destruct l as [|x l]; [done|]. apply Forall_cons in Hb as [Hx _]. lia.
  - rewrite (left_sorted_split l a) at 1; [|done|by eapply Forall_impl; [exact Hb|]; simpl; lia].
    f_equal.
    set (l' := filter (fun x => left_of x <> a) l).
    rewrite (IH l' (S a)).
    + apply flat_map_ext_in. intros i Hi%elem_of_seq. unfold l'.
      apply list_filter_filter_l. intros x. lia.
    + unfold l'. clear -Hs. induction Hs as [|x l Hl IH Hx]; [constructor|].
      rewrite filter_cons. case_decide; [|done].
      constructor; [done|]. by apply Forall_filter_keep.
    + unfold l'. apply Forall_forall. intros x [Hne Hin]%list_elem_of_filter.
      eapply Forall_forall in Hb; [|done]. simpl in Hb. lia.
Qed.

Lemma flat_map_prefix_length {A} (g : nat -> list A) k i :
  (forall j, j < i -> length (g j) = k) ->
  length (flat_map g (seq 0 i)) = k * i.
Proof.
  induction i as [|i IH]; intros Hg; [simpl; lia|].
  rewrite seq_S, flat_map_app, length_app, IH by (intros; apply Hg; lia).
  cbn [flat_map]. rewrite app_nil_r, Nat.add_0_l, Hg by lia. lia.
Qed.

Lemma flat_map_slice {A} (g : nat -> list A) n k i :
  (forall j, j < n -> length (g j) = k) -> i < n ->
  py_slice (flat_map g (seq 0 n)) (k * i) (k * (i + 1)) = g i.
Proof.
  intros Hg Hi. unfold py_slice.
  replace (seq 0 n) with (seq 0 i ++ i :: seq (S i) (n - S i)).
  - rewrite flat_map_app. cbn [flat_map].
    rewrite drop_app_length'
      by (symmetry; apply flat_map_prefix_length; intros; apply Hg; lia).
    apply take_app_length'. rewrite Hg by lia. lia.
  - change (seq 0 i ++ seq (0 + i) (S (n - S i)) = seq 0 n).
    rewrite <- seq_app. f_equal. lia.
Qed.

(** In a list sorted by left index in which every index below [n] has
    [n - 1] records, the [i]-th slice holds exactly the records of [i]. *)
Lemma block_filter n (ds : list entry) i :
  StronglySorted left_le ds -> Forall (fun x => left_of x < n) ds ->
  (forall j, j < n -> left_count j ds = n - 1) -> i < n ->
  block n ds i = filter (fun x => left_of x = i) ds.
Proof.
  intros Hs Hb Hc Hi. unfold block.
  rewrite (left_sorted_blocks ds 0 n) at 1;
    [|done|by eapply Forall_impl; [exact Hb|]; simpl; lia].
  by apply (flat_map_slice (fun i => filter (fun x => left_of x = i) ds)).
Qed.

(** ** Walking the blocks *)

Definition entity_at (objs : list Obj) (k : nat) : Obj := default 0 (objs !! k).

(** The call behind a record, with the answer it got. *)
Definition nearby_event (objs : list Obj) (r : entry (num:=num) * bool) : Event :=
  CallNearby (entity_at objs (left_of r.1)) (entity_at objs (right_of r.1))
             (dist_of r.1) r.2.

(** [delivered blk seg]: [seg] is what walking [blk] delivers, the walk
    going on after the answer [true] and stopping after the answer [false]. *)
Inductive delivered : list (entry (num:=num)) -> list (entry (num:=num) * bool) -> Prop :=
| delivered_nil : delivered [] []
| delivered_stop a rest : delivered (a :: rest) [(a, false)]
| delivered_go a rest seg :
    delivered rest seg -> delivered (a :: rest) ((a, true) :: seg).

Lemma delivered_prefix blk seg : delivered blk seg -> (map fst seg) `prefix_of` blk.
Proof.
  induction 1 as [|a rest|a rest seg _ IH]; simpl.
  - done.
  - by apply prefix_cons, prefix_nil.
  - by apply prefix_cons.
Qed.

Lemma delivered_false blk seg k a :
  delivered blk seg -> seg !! k = Some (a, false) -> length seg = S k.
Proof.
  intros Hd. revert k. induction Hd as [|b rest|b rest seg _ IH]; intros k Hk.
  - done.
  - destruct k; [done|]. by destruct k.
  - destruct k as [|k]; [done|]. simpl in *. f_equal. by apply IH.
Qed.

Lemma delivered_all_true blk seg :
  delivered blk seg -> Forall (fun r => r.2 = true) seg -> map fst seg = blk.
Proof.
  induction 1 as [|a rest|a rest seg _ IH]; intros Hall; simpl.
  - done.
  - by apply Forall_cons in Hall as [? _].
  - apply Forall_cons in Hall as [_ Hall]. f_equal. by apply IH.
Qed.

Lemma delivered_answers blk seg k r :
  delivered blk seg -> seg !! k = Some r -> S k < length seg -> r.2 = true.
Proof.
  intros Hd. revert k. induction Hd as [|b rest|b rest seg _ IH]; intros k Hk Hlt.
  - done.
  - simpl in Hlt. lia.
  - destruct k as [|k]; [by injection Hk as <-|].
    simpl in *. apply (IH k); [done|lia].
Qed.

Lemma positions_of_lookup ent (u : US) objs k (p : position) :
  positions_of ent u objs !! k = Some p -> objs !! k = Some p.1.1.
Proof.
  revert k. induction objs as [|o objs IH]; intros k; [done|].
  destruct k as [|k]; simpl; [|apply IH].
  destruct (get_xy ent o u). by intros [= <-].
Qed.

Lemma positions_of_length ent (u : US) objs :
  length (positions_of ent u objs) = length objs.
Proof. unfold positions_of. apply length_map. Qed.

Lemma py_index_ok {A} (l : list A) i (a : A) w w' :
  py_index l i w = Ok a w' -> l !! i = Some a /\ w' = w.
Proof. unfold py_index. destruct (l !! i); [by intros [= -> ->]|done]. Qed.

Lemma py_assert_ok c site w w' :
  py_assert c site w = Ok tt w' -> c = true /\ w' = w.
Proof. destruct c; [by intros [= ->]|done]. Qed.

(** The inner loop delivers a block up to the first [False]. *)
Lemma nearby_block_delivered ent (u : US) objs i (blk : list entry) w w' :
  nearby_block ent (positions_of ent u objs) i blk w = Ok tt w' ->
  exists seg,
    delivered blk seg /\ logged (map (nearby_event objs) seg) w w'
    /\ Forall (fun r => left_of r.1 = i) seg.
Proof.
  revert w. induction blk as [|[[k1 d] k2] rest IH]; intros w; simpl.
  - intros [= <-]. exists []. split_and!; [constructor|apply logged_refl|constructor].
  - intros ([] & w1 & [Hk1%Nat.eqb_eq ->]%py_assert_ok & Hb)%bind_ok.
    apply bind_ok in Hb as (pl & w2 & [Hl ->]%py_index_ok & Hb).
    apply bind_ok in Hb as (pr & w3 & [Hr ->]%py_index_ok & Hb).
    apply bind_ok in Hb as (b & w4 & Hcall & Hb).
    apply positions_of_lookup in Hl, Hr.
    apply call_nearby_logged in Hcall.
    assert (Hev : [CallNearby pl.1.1 pr.1.1 d b]
                  = map (nearby_event objs) [((k1, d, k2), b)]).
    { unfold nearby_event, entity_at, left_of, right_of, dist_of. simpl.
      by rewrite Hl, Hr. }
    rewrite Hev in Hcall. destruct b; simpl in Hb.
    + destruct (IH _ Hb) as (seg & Hd & Hlog & Hleft).
      exists (((k1, d, k2), true) :: seg). split_and!; [by constructor| |by constructor].
      apply (logged_trans _ _ _ _ _ Hcall Hlog).
    + injection Hb as <-. exists [((k1, d, k2), false)].
      split_and!; [constructor|done|by repeat constructor].
Qed.

Lemma for_each_logged_ex {A T} (l : list A) (body : A -> M unit)
    (Q : A -> T -> Prop) (ev : T -> list Event) :
  (forall x w w', body x w = Ok tt w' -> exists t, Q x t /\ logged (ev t) w w') ->
  forall w w', for_each l body w = Ok tt w' ->
    exists ts, Forall2 Q l ts /\ logged (concat (map ev ts)) w w'.
Proof.
  intros Hb. induction l as [|x l IH]; intros w w'; simpl.
  - intros [= <-]. exists []. split; [constructor|apply logged_refl].
  - intros ([] & w1 & H1 & H2)%bind_ok.
    destruct (Hb _ _ _ H1) as (t & HQ & Hlog1).
    destruct (IH _ _ H2) as (ts & HQs & Hlog2).
    exists (t :: ts). split; [by constructor|].
    apply (logged_trans _ _ _ _ _ Hlog1 Hlog2).
Qed.

(** The sorted list a pass walks. *)
Definition pass_records ent w (objs : list Obj) : list (entry (num:=num)) :=
  records (dist_at ent (_account_for_radii_in_dist (game w)) (user w)
                   (positions_of ent (user w) objs))
          (length objs).

Definition pass_distances ent w (objs : list Obj) : list (entry (num:=num)) :=
  list_sort (pass_records ent w objs).

Lemma pass_distances_length ent w objs :
  length (pass_distances ent w objs) = length objs * (length objs - 1).
Proof.
  unfold pass_distances, pass_records.
  by rewrite (Permutation_length (list_sort_perm _)), records_length.
Qed.

(** Up to the walk, a pass is a computation without effect whose
    assertion on the number of records holds. *)
Lemma nearby_calls_on_eq ent objs w :
  nearby_calls_on ent objs w
  = for_each (seq 0 (length objs))
      (fun i => nearby_block ent (positions_of ent (user w) objs) i
                  (block (length objs) (pass_distances ent w objs) i)) w.
Proof.
  unfold nearby_calls_on, bind at 1. rewrite snapshot_eq.
  unfold bind at 1. rewrite build_distances_eq.
  rewrite positions_of_length.
  fold (pass_records ent w objs). fold (pass_distances ent w objs).
  unfold bind at 1. rewrite pass_distances_length, Nat.eqb_refl. reflexivity.
Qed.

Lemma nearby_calls_on_delivered ent objs w w' :
  nearby_calls_on ent objs w = Ok tt w' ->
  exists segs,
    Forall2 (fun i seg =>
               delivered (block (length objs) (pass_distances ent w objs) i) seg
               /\ Forall (fun r => left_of r.1 = i) seg)
            (seq 0 (length objs)) segs
    /\ logged (concat (map (map (nearby_event objs)) segs)) w w'.
Proof.
  rewrite nearby_calls_on_eq.
  apply (for_each_logged_ex _ _
    (fun i seg =>
       delivered (block (length objs) (pass_distances ent w objs) i) seg
       /\ Forall (fun r => left_of r.1 = i) seg)
    (map (nearby_event objs))).
  intros i w1 w2 Hr. apply nearby_block_delivered in Hr as (seg & ? & ? & ?).
  by exists seg.
Qed.

(** ** Which exceptions can come out *)

(** The assertions a callback can trip, through the methods it calls. *)
Definition from_callback (x : exn) : bool :=
  match x with
  | AssertionError UnknownConfig | AssertionError AlreadyActive
  | AssertionError AlreadyPending | AssertionError NotActive => true
  | _ => false
  end.

Definition raises_only {A} (ok : exn -> Prop) (m : M A) : Prop :=
  forall w x w', m w = Raised x w' -> ok x.

Lemma raises_only_ret {A} ok (a : A) : raises_only ok (ret a).
Proof. intros w x w' Hr. discriminate Hr. Qed.

Lemma raises_only_bind {A B} ok (m : M A) (k : A -> M B) :
  raises_only ok m -> (forall a, raises_only ok (k a)) -> raises_only ok (bind m k).
Proof.
  intros Hm Hk w x w'. unfold bind. destruct (m w) as [a w1|x1 w1] eqn:E.
  - apply Hk.
  - intros [= <- <-]. by eapply Hm.
Qed.

Lemma raises_only_for_each {A} ok (l : list A) (body : A -> M unit) :
  (forall a, a ∈ l -> raises_only ok (body a)) -> raises_only ok (for_each l body).
Proof.
  induction l as [|a l IH]; intros Hb; simpl; [apply raises_only_ret|].
  apply raises_only_bind; [apply Hb; left|intros _].
  apply IH. intros b Hin. apply Hb. by right.
Qed.

Lemma run_raises_only {A} (p : Prog A) :
  raises_only (fun x => from_callback x = true) (run p).
Proof.
  induction p as [a|f k IH|k IH|f k IH|param val k IH|k IH|k IH|o k IH|o k IH];
    simpl.
  - apply raises_only_ret.
  - intros w x w'. apply IH.
  - intros w x w'. apply IH.
  - apply raises_only_bind; [|intros _; exact IH]. intros w x w' Hr. discriminate Hr.
  - apply raises_only_bind; [|intros _; exact IH]. intros w x w'.
    unfold config_set. destruct (String.eqb _ _); [discriminate|].
    by intros [= <- _].
  - apply raises_only_bind; [|intros _; exact IH]. intros w x w' Hr. discriminate Hr.
  - apply raises_only_bind; [|intros b; apply IH]. intros w x w' Hr. discriminate Hr.
  - apply raises_only_bind; [|intros _; exact IH]. intros w x w'.
    unfold add_obj, bind, get_game, py_assert.
    destruct (bool_decide _); simpl; [by intros [= <- _]|].
    destruct (bool_decide _); simpl; [by intros [= <- _]|discriminate].
  - apply raises_only_bind; [|intros _; exact IH]. intros w x w'.
    unfold remove_obj, bind, get_game, py_assert.
    destruct (bool_decide _); simpl; [discriminate|by intros [= <- _]].
Qed.

Lemma call_nearby_raises_only ent l r d :
  raises_only (fun x => from_callback x = true) (call_nearby ent l r d).
Proof.
  unfold call_nearby. apply raises_only_bind; [apply run_raises_only|intros b].
  intros w x w' Hr. discriminate Hr.
Qed.

(** On a block of well-formed records of [i], the inner loop raises only
    what a callback raised. *)
Lemma nearby_block_raises_only ent (positions : list position) i (blk : list entry) :
  Forall (fun a => left_of a = i /\ left_of a < length positions
                   /\ right_of a < length positions) blk ->
  raises_only (fun x => from_callback x = true) (nearby_block ent positions i blk).
Proof.
  induction 1 as [|[[k1 d] k2] rest (Hi & Hl & Hr) _ IH]; simpl.
  - apply raises_only_ret.
  - unfold left_of, right_of in *; simpl in *. subst k1.
    rewrite Nat.eqb_refl.
    apply raises_only_bind; [apply raises_only_ret|intros _].
    destruct (lookup_lt_is_Some_2 positions i Hl) as [pl Hpl].
    destruct (lookup_lt_is_Some_2 positions k2 Hr) as [pr Hpr].
    unfold py_index. rewrite Hpl, Hpr.
    apply raises_only_bind; [apply raises_only_ret|intros pl'].
    apply raises_only_bind; [apply raises_only_ret|intros pr'].
    apply raises_only_bind; [apply call_nearby_raises_only|intros b].
    destruct b; simpl; [exact IH|apply raises_only_ret].
Qed.

Lemma nearby_block_never_count ent (positions : list position) i (blk : list entry) :
  raises_only (fun x => x <> AssertionError RecordCount)
              (nearby_block ent positions i blk).
Proof.
  induction blk as [|[[k1 d] k2] rest IH]; simpl; [apply raises_only_ret|].
  apply raises_only_bind.
  { intros w x w'. unfold py_assert. destruct (Nat.eqb _ _); [discriminate|].
    by intros [= <- _]. }
  intros _. apply raises_only_bind.
  { intros w x w'. unfold py_index. destruct (_ !! _); [discriminate|].
    by intros [= <- _]. }
  intros pl. apply raises_only_bind.
  { intros w x w'. unfold py_index. destruct (_ !! _); [discriminate|].
    by intros [= <- _]. }
  intros pr. apply raises_only_bind.
  { intros w x w' Hr%call_nearby_raises_only. by destruct x as [[]|]. }
  intros b. destruct b; simpl; [exact IH|apply raises_only_ret].
Qed.

Lemma positions_of_lookup_Some ent (u : US) objs k o :
  objs !! k = Some o ->
  @lookup nat (position (num:=num)) (list position) _ k (positions_of ent u objs)
  = Some (o, (get_xy ent o u).1, (get_xy ent o u).2).
Proof.
  revert k. induction objs as [|o' objs IH]; intros k; [done|].
  destruct k as [|k]; simpl; [|apply IH].
  intros [= ->]. by destruct (get_xy ent o u).
Qed.

Lemma block_length n (ds : list entry) i :
  length ds = n * (n - 1) -> i < n -> length (block n ds i) = n - 1.
Proof.
  intros Hlen Hi. unfold block, py_slice. rewrite length_take, length_drop, Hlen.
  nia.
Qed.

Lemma StronglySorted_sublist {A} (R : A -> A -> Prop) (l1 l2 : list A) :
  l1 `sublist_of` l2 -> StronglySorted R l2 -> StronglySorted R l1.
Proof.
  induction 1 as [|x l1 l2 Hsub IH|x l1 l2 Hsub IH]; intros Hs.
  - constructor.
  - apply StronglySorted_inv in Hs as [Hs Hx]. constructor; [by apply IH|].
    apply Forall_forall. intros y Hy. eapply Forall_forall in Hx; [done|].
    by eapply elem_of_sublist.
  - apply StronglySorted_inv in Hs as [Hs _]. by apply IH.
Qed.

Lemma StronglySorted_lookup {A} (R : A -> A -> Prop) (l : list A) k1 k2 a b :
  StronglySorted R l -> k1 < k2 -> l !! k1 = Some a -> l !! k2 = Some b -> R a b.
Proof.
  intros Hs. revert k1 k2. induction Hs as [|x l Hs IH Hx]; intros k1 k2 Hlt H1 H2.
  - done.
  - destruct k2 as [|k2]; [lia|]. destruct k1 as [|k1]; simpl in *.
    + injection H1 as <-. eapply Forall_forall in Hx; [done|].
      by eapply list_elem_of_lookup_2.
    + apply (IH k1 k2); [lia|done|done].
Qed.

(** What is delivered is, block after block, a prefix of the block. *)
Lemma delivered_concat (blk : nat -> list entry) (l : list nat)
    (segs : list (list (entry * bool))) :
  Forall2 (fun i seg => delivered (blk i) seg) l segs ->
  map fst (concat segs) `sublist_of` flat_map blk l
  /\ (Forall (fun r => r.2 = true) (concat segs) ->
      map fst (concat segs) = flat_map blk l).
Proof.
  induction 1 as [|i seg l segs Hd _ [IH1 IH2]]; simpl.
  - split; [constructor|done].
  - rewrite map_app. split.
    + apply sublist_app; [|done].
      destruct (delivered_prefix _ _ Hd) as [k ->]. by apply sublist_inserts_r.
    + intros [Hs Hr]%Forall_app. f_equal; [by apply delivered_all_true|by apply IH2].
Qed.

Lemma do_nearby_calls_eq ent w :
  do_nearby_calls ent w = nearby_calls_on ent (elements (_active_objs (game w))) w.
Proof. reflexivity. Qed.

(** C2: with [n] active entities the pass builds exactly [n * (n - 1)]
    records, all distinct (the assertion on their number never fails):
    for every pair of positions [i < j] the records [(i, d, j)] and
    [(j, d, i)], with one and the same [d], and nothing else.  [d] is the
    Euclidean distance of the two positions and, when
    [account_for_radii_in_dist] is set, that distance minus the radius of
    the one and then of the other entity, with no clamping. *)
Theorem do_nearby_calls_records ent w :
  let objs := elements (_active_objs (game w)) in
  let n := length objs in
  let u := user w in
  let acc := _account_for_radii_in_dist (game w) in
  let recs := pass_records ent w objs in
  n = size (_active_objs (game w))
  /\ build_distances ent (positions_of ent u objs) w = Ok recs w
  /\ length recs = n * (n - 1)
  /\ NoDup recs
  /\ pass_distances ent w objs ≡ₚ recs
  /\ raises_only (fun x => x <> AssertionError RecordCount) (do_nearby_calls ent)
  /\ (forall i j o1 o2,
        i < j -> objs !! i = Some o1 -> objs !! j = Some o2 ->
        let '(x1, y1) := get_xy ent o1 u in
        let '(x2, y2) := get_xy ent o2 u in
        let d := if acc
                 then num_sub (num_sub (euclid x1 y1 x2 y2) (get_radius ent o1 u))
                              (get_radius ent o2 u)
                 else euclid x1 y1 x2 y2 in
        (i, d, j) ∈ recs /\ (j, d, i) ∈ recs)
  /\ (forall a, a ∈ recs ->
        exists i j d, i < j < n /\ (i, d, j) ∈ recs /\ (j, d, i) ∈ recs
                      /\ (a = (i, d, j) \/ a = (j, d, i))).
Proof.
  cbv zeta. split_and!.
  - reflexivity.
  - unfold pass_records. rewrite build_distances_eq. by rewrite positions_of_length.
  - apply records_length.
  - apply records_NoDup.
  - apply list_sort_perm.
  - intros w1 x w1'. rewrite do_nearby_calls_eq, nearby_calls_on_eq.
    apply (raises_only_for_each (fun x => x <> AssertionError RecordCount)).
    intros i _. apply nearby_block_never_count.
  - intros i j o1 o2 Hij H1 H2.
    pose proof (lookup_lt_Some _ _ _ H2) as Hj.
    pose proof (positions_of_lookup_Some ent (user w) _ _ _ H1) as Hp1.
    pose proof (positions_of_lookup_Some ent (user w) _ _ _ H2) as Hp2.
    destruct (get_xy ent o1 (user w)) as [x1 y1], (get_xy ent o2 (user w)) as [x2 y2].
    cbn [fst snd] in Hp1, Hp2.
    assert (Hd : dist_at ent (_account_for_radii_in_dist (game w)) (user w)
                   (positions_of ent (user w) (elements (_active_objs (game w)))) i j
                 = if _account_for_radii_in_dist (game w)
                   then num_sub (num_sub (euclid x1 y1 x2 y2)
                                         (get_radius ent o1 (user w)))
                                (get_radius ent o2 (user w))
                   else euclid x1 y1 x2 y2).
    { unfold dist_at. by rewrite Hp1, Hp2. }
    rewrite <- Hd. unfold pass_records.
    split; apply elem_of_records; exists i, j; (split; [lia|]); [by left|by right].
  - intros a Ha. unfold pass_records in *.
    pose proof Ha as (i & j & Hij & Hor)%elem_of_records.
    eexists i, j, _. split; [done|].
    split_and!; [| |exact Hor]; apply elem_of_records; exists i, j;
      (split; [done|]); [by left|by right].
Qed.

(** C3: in a pass that returns, the calls made are, for the left-hand
    indices [0 .. n-1] in turn, a prefix of the block of [n - 1] records
    of that index: all answers but the last of a block are [True]; once an
    entity answers [False] nothing more of its block is delivered; and an
    entity that never answers [False] gets its whole block, whatever the
    other entities answered. *)
Theorem do_nearby_calls_early_stop ent w w' :
  do_nearby_calls ent w = Ok tt w' ->
  let objs := elements (_active_objs (game w)) in
  let n := length objs in
  let ds := pass_distances ent w objs in
  exists segs : list (list (entry * bool)),
    length segs = n
    /\ calls w' = calls w ++ concat (map (map (nearby_event objs)) segs)
    /\ forall i seg, segs !! i = Some seg ->
         let blk := block n ds i in
         length blk = n - 1
         /\ (map fst seg) `prefix_of` blk
         /\ Forall (fun r => left_of r.1 = i) seg
         /\ (forall k a, seg !! k = Some (a, false) -> length seg = S k)
         /\ (forall k r, seg !! k = Some r -> S k < length seg -> r.2 = true)
         /\ (Forall (fun r => r.2 = true) seg ->
               map fst seg = blk /\ length seg = n - 1).
Proof.
  rewrite do_nearby_calls_eq. intros Hr. cbv zeta.
  apply nearby_calls_on_delivered in Hr as (segs & Hsegs & Hlog).
  exists segs. split_and!.
  - apply Forall2_length in Hsegs. by rewrite length_seq in Hsegs.
  - by destruct Hlog as (_ & _ & _ & _ & ?).
  - intros i seg Hi.
    destruct (Forall2_lookup_r _ _ _ _ _ Hsegs Hi) as (i' & Hi' & Hd & Hleft).
    apply lookup_seq in Hi' as [-> Hlt]. simpl in Hd, Hleft.
    assert (Hlen : length (block (length (elements (_active_objs (game w))))
                     (pass_distances ent w (elements (_active_objs (game w)))) i)
                   = length (elements (_active_objs (game w))) - 1).
    { apply block_length; [apply pass_distances_length|done]. }
    split_and!.
    + done.
    + by apply delivered_prefix.
    + done.
    + intros k a. apply (delivered_false _ _ k a Hd).
    + intros k r. apply (delivered_answers _ _ k r Hd).
    + intros Hall. pose proof (delivered_all_true _ _ Hd Hall) as Heq.
      split; [done|]. by rewrite <- Hlen, <- Heq, length_map.
Qed.

Section SortedDispatch.

Context {HO : NumberOrder num}.

Lemma StronglySorted_strict (l : list entry) :
  StronglySorted entry_le l -> NoDup l -> StronglySorted entry_lex l.
Proof.
  induction 1 as [|x l Hl IH Hx]; intros Hnd; [constructor|].
  apply NoDup_cons in Hnd as [Hx' Hnd]. constructor; [by apply IH|].
  apply Forall_forall. intros y Hy. eapply Forall_forall in Hx; [|done].
  apply entry_le_lex in Hx as [->|?]; done.
Qed.

Lemma pass_distances_sorted ent w objs :
  StronglySorted entry_lex (pass_distances ent w objs).
Proof.
  apply StronglySorted_strict; [apply list_sort_sorted|].
  unfold pass_distances. rewrite list_sort_perm. apply records_NoDup.
Qed.

Lemma pass_distances_bounds ent w objs (a : entry) :
  a ∈ pass_distances ent w objs ->
  left_of a < length objs /\ right_of a < length objs /\ left_of a <> right_of a.
Proof.
  unfold pass_distances. rewrite list_sort_perm. apply records_bounds.
Qed.

Lemma pass_block_filter ent w objs i :
  i < length objs ->
  block (length objs) (pass_distances ent w objs) i
  = filter (fun a => left_of a = i) (pass_distances ent w objs).
Proof.
  intros Hi. apply block_filter; [| | |done].
  - eapply StronglySorted_impl; [apply entry_le_left|apply list_sort_sorted].
  - apply Forall_forall. intros a Ha. by apply pass_distances_bounds in Ha as [? _].
  - intros j Hj. unfold pass_distances.
    rewrite (left_count_perm _ _ _ (list_sort_perm _)). by apply records_left_count.
Qed.

Lemma pass_distances_blocks ent w objs :
  pass_distances ent w objs
  = flat_map (block (length objs) (pass_distances ent w objs)) (seq 0 (length objs)).
Proof.
  rewrite (left_sorted_blocks (pass_distances ent w objs) 0 (length objs)) at 1.
  - apply flat_map_ext_in. intros i Hi%elem_of_seq.
    symmetry. apply pass_block_filter. lia.
  - eapply StronglySorted_impl; [apply entry_le_left|apply list_sort_sorted].
  - apply Forall_forall. intros a Ha. apply pass_distances_bounds in Ha. simpl. lia.
Qed.

Lemma block_sublist n (ds : list entry) i : block n ds i `sublist_of` ds.
Proof.
  unfold block, py_slice. etransitivity; [apply sublist_take|apply sublist_drop].
Qed.

(** With a total order on distances the engine's own assertions and
    index lookups never fail: a pass raises only what a callback raised. *)
Lemma nearby_calls_on_raises_only ent objs :
  raises_only (fun x => from_callback x = true) (nearby_calls_on ent objs).
Proof.
  intros w x w'. rewrite nearby_calls_on_eq.
  apply (raises_only_for_each (fun x => from_callback x = true)).
  intros i Hi%elem_of_seq. apply nearby_block_raises_only.
  rewrite pass_block_filter by lia. apply Forall_forall.
  intros a [Hl Ha]%list_elem_of_filter. rewrite positions_of_length.
  apply pass_distances_bounds in Ha. tauto.
Qed.

(** C1: the list a pass walks is the lexicographic sort, by
    [(left index, distance, right index)], of all its records; the
    records of one left-hand index are contiguous (the [i]-th slice of
    [n - 1] records holds exactly those of [i]); inside a block distances
    never decrease and equal distances come by ascending right index.
    The calls a pass makes follow this list: they are a sublist of it, in
    its order, and the whole of it when no entity answers [False].  The
    assertion on the left index never fails. *)
Theorem do_nearby_calls_order ent w :
  let objs := elements (_active_objs (game w)) in
  let n := length objs in
  let ds := pass_distances ent w objs in
  ds ≡ₚ pass_records ent w objs
  /\ StronglySorted entry_lex ds
  /\ (forall a b : entry, entry_ltb a b = true <-> entry_lex a b)
  /\ (forall l : list entry,
        l ≡ₚ pass_records ent w objs -> StronglySorted entry_le l -> l = ds)
  /\ ds = flat_map (block n ds) (seq 0 n)
  /\ (forall i, i < n ->
        block n ds i = filter (fun a => left_of a = i) ds
        /\ length (block n ds i) = n - 1)
  /\ (forall i k1 k2 a b,
        i < n -> k1 < k2 ->
        block n ds i !! k1 = Some a -> block n ds i !! k2 = Some b ->
        left_of a = i /\ left_of b = i
        /\ num_ltb (dist_of b) (dist_of a) = false
        /\ (dist_of a = dist_of b -> right_of a < right_of b))
  /\ (forall w', do_nearby_calls ent w = Ok tt w' ->
        exists recs : list (entry * bool),
          calls w' = calls w ++ map (nearby_event objs) recs
          /\ (map fst recs) `sublist_of` ds
          /\ StronglySorted entry_lex (map fst recs)
          /\ (Forall (fun r => r.2 = true) recs -> map fst recs = ds))
  /\ raises_only (fun x => from_callback x = true) (do_nearby_calls ent).
Proof.
  cbv zeta. split_and!.
  - apply list_sort_perm.
  - apply pass_distances_sorted.
  - apply entry_ltb_lex.
  - intros l Hp Hs. apply sorted_perm_unique; [done|apply list_sort_sorted|].
    unfold pass_distances. by rewrite list_sort_perm.
  - apply pass_distances_blocks.
  - intros i Hi. split; [by apply pass_block_filter|].
    apply block_length; [apply pass_distances_length|done].
  - intros i k1 k2 a b Hi Hk Ha Hb.
    assert (Hla : left_of a = i).
    { apply list_elem_of_lookup_2 in Ha. rewrite pass_block_filter in Ha by done.
      by apply list_elem_of_filter in Ha as [? _]. }
    assert (Hlb : left_of b = i).
    { apply list_elem_of_lookup_2 in Hb. rewrite pass_block_filter in Hb by done.
      by apply list_elem_of_filter in Hb as [? _]. }
    assert (Hab : entry_lex a b).
    { eapply (StronglySorted_lookup entry_lex); [|exact Hk|exact Ha|exact Hb].
      eapply StronglySorted_sublist; [apply block_sublist|].
      apply pass_distances_sorted. }
    destruct a as [[i1 d1] j1], b as [[i2 d2] j2].
    unfold left_of, right_of, dist_of, entry_lex in *. simpl in *. subst i1 i2.
    destruct Hab as [?|[_ [Hd|[-> Hj]]]]; [lia| |].
    + split_and!; try done; [by apply num_ltb_asym|].
      intros ->. by rewrite num_ltb_irrefl in Hd.
    + split_and!; try done. apply num_ltb_irrefl.
  - intros w' Hr. rewrite do_nearby_calls_eq in Hr.
    apply nearby_calls_on_delivered in Hr as (segs & Hsegs & Hlog).
    exists (concat segs).
    assert (Hd : Forall2
              (fun i seg =>
                 delivered (block (length (elements (_active_objs (game w))))
                              (pass_distances ent w (elements (_active_objs (game w)))) i)
                           seg)
              (seq 0 (length (elements (_active_objs (game w))))) segs).
    { eapply Forall2_impl; [exact Hsegs|]. by intros i seg [? _]. }
    apply delivered_concat in Hd as [Hsub Hall].
    rewrite <- pass_distances_blocks in Hsub, Hall.
    split_and!.
    + destruct Hlog as (_ & _ & _ & _ & ->). f_equal.
      clear. induction segs as [|seg segs IH]; [done|].
      simpl. by rewrite map_app, IH.
    + done.
    + eapply StronglySorted_sublist; [exact Hsub|apply pass_distances_sorted].
    + done.
  - intros w1. rewrite do_nearby_calls_eq. apply nearby_calls_on_raises_only.
Qed.

End SortedDispatch.

End Facts.

(** * The theorems at work on the demo game *)

Lemma config_set_spec_witness :
  config_set "account_for_radii_in_dist" true demo_world
  = Ok tt (with_game (set_account_for_radii_in_dist true) demo_world)
  /\ config_set "unknownOption" true demo_world
     = Raised (AssertionError UnknownConfig) demo_world.
Proof.
  split.
  - apply (config_set_spec "account_for_radii_in_dist" true demo_world).
    reflexivity.
  - apply (config_set_spec "unknownOption" true demo_world). discriminate.
Defined.

Lemma execute_adds_and_removes_spec_witness :
  exists w',
    _execute_adds_and_removes demo_staged_world = Ok tt w'
    /\ _active_objs (game w') = ({[0; 1; 2]} ∖ {[0]}) ∪ {[3]}
    /\ _pending_removes (game w') = ∅
    /\ _pending_adds (game w') = ∅.
Proof.
  destruct (execute_adds_and_removes_spec demo_staged_world)
    as (w' & Hr & Ha & Hrem & Hadd & _).
  exists w'. split; [exact Hr|]. split; [exact Ha|]. split; [exact Hrem|exact Hadd].
Defined.

Lemma add_remove_obj_spec_witness :
  is_raised (add_obj 1 demo_world) = true
  /\ is_raised (remove_obj 1 demo_world) = false
  /\ remove_obj 1 (world_of (remove_obj 1 demo_world))
     = Ok tt (world_of (remove_obj 1 demo_world)).
Proof.
  destruct (add_remove_obj_spec 1 demo_world)
    as (Hadd & _ & _ & Hrem & _ & Hok).
  assert (Hin : 1 ∈ _active_objs (game demo_world)).
  { apply (bool_decide_unpack (1 ∈ _active_objs (game demo_world))).
    vm_compute. exact I. }
  split; [apply Hadd; left; exact Hin|].
  assert (Hnr : is_raised (remove_obj 1 demo_world) = false).
  { destruct (is_raised (remove_obj 1 demo_world)) eqn:E; [|reflexivity].
    destruct (proj1 Hrem eq_refl Hin). }
  split; [exact Hnr|]. apply Hok. exact Hnr.
Defined.

Lemma add_then_remove_counterexample :
  (7 ∉ _active_objs (game demo_world))
  /\ (bind (add_obj 7) (fun _ => remove_obj 7)) demo_world
     = Raised (AssertionError NotActive)
         (with_game (fun g => set_pending_adds (_pending_adds g ∪ {[7]}) g) demo_world)
  /\ ~ (exists w', (bind (add_obj 7) (fun _ => remove_obj 7)) demo_world = Ok tt w').
Proof.
  assert (Hout : 7 ∉ _active_objs (game demo_world)).
  { apply (bool_decide_eq_false_1 (7 ∈ _active_objs (game demo_world))).
    vm_compute. reflexivity. }
  assert (Hr : (bind (add_obj 7) (fun _ => remove_obj 7)) demo_world
     = Raised (AssertionError NotActive)
         (with_game (fun g => set_pending_adds (_pending_adds g ∪ {[7]}) g) demo_world)).
  { unfold bind at 1. rewrite add_obj_ok; [|exact Hout|].
    - apply remove_obj_not_active. exact Hout.
    - apply (bool_decide_eq_false_1 (7 ∈ _pending_adds (game demo_world))).
      vm_compute. reflexivity. }
  split; [exact Hout|]. split; [exact Hr|].
  intros [w' Hw']. rewrite Hr in Hw'. discriminate Hw'.
Qed.

Lemma add_then_remove_spec_witness :
  (7 ∉ _active_objs (game demo_world))
  /\ (7 ∉ _pending_adds (game demo_world))
  /\ exists w1 w2,
      add_obj 7 demo_world = Ok tt w1
      /\ remove_obj 7 w1 = Raised (AssertionError NotActive) w1
      /\ _execute_adds_and_removes w1 = Ok tt w2
      /\ 7 ∈ _active_objs (game w2)
      /\ is_raised (remove_obj 7 w2) = false.
Proof.
  assert (Hout : 7 ∉ _active_objs (game demo_world)).
  { apply (bool_decide_eq_false_1 (7 ∈ _active_objs (game demo_world))).
    vm_compute. reflexivity. }
  assert (Hnew : 7 ∉ _pending_adds (game demo_world)).
  { apply (bool_decide_eq_false_1 (7 ∈ _pending_adds (game demo_world))).
    vm_compute. reflexivity. }
  split; [exact Hout|]. split; [exact Hnew|].
  destruct (add_then_remove_spec 7 demo_world Hout Hnew)
    as (w1 & w2 & H1 & _ & H2 & H3 & H4 & H5 & _).
  exists w1, w2. repeat (split; [assumption|]). assumption.
Defined.

Lemma draw_spec_witness :
  is_killed (_win (game demo_dead_world)) = true
  /\ is_raised (draw demo_entities demo_dead_world) = false
  /\ _game_over (game (world_of (draw demo_entities demo_dead_world))) = true
  /\ calls (world_of (draw demo_entities demo_dead_world)) = []
  /\ _active_objs (game (world_of (draw demo_entities demo_dead_world)))
     = ({[0; 1; 2]} ∖ {[0]}) ∪ {[3]}.
Proof.
  assert (Hk : is_killed (_win (game demo_dead_world)) = true) by reflexivity.
  destruct (draw_spec demo_entities demo_dead_world) as (Hdead & _ & _).
  destruct (Hdead Hk) as (Heq & Hover & Hcalls & _ & Hact & _).
  split; [exact Hk|]. split; [rewrite Heq; reflexivity|].
  split; [exact Hover|]. split; [exact Hcalls|exact Hact].
Defined.

Lemma game_over_monotone_witness :
  _game_over (game demo_over_world) = true
  /\ _game_over
       (game (exec_all demo_entities
                [OpConfigSet "unknownOption" false; OpAddObj 0; OpRemoveObj 1;
                 OpDoNearbyCalls; OpDoMoveCalls; OpDoEdgeCalls; OpDraw]
                demo_over_world)) = true.
Proof.
  split; [reflexivity|].
  apply (game_over_monotone demo_entities). reflexivity.
Defined.

Lemma do_edge_calls_spec_witness :
  exists w',
    edge_calls_for demo_entities 0 demo_world = Ok tt w'
    /\ calls w' = [CallEdge 0 "left" 0%Z; CallEdge 0 "top" 0%Z].
Proof.
  exists (world_of (edge_calls_for demo_entities 0 demo_world)).
  assert (Hr : edge_calls_for demo_entities 0 demo_world
               = Ok tt (world_of (edge_calls_for demo_entities 0 demo_world)))
    by (vm_compute; reflexivity).
  split; [exact Hr|].
  destruct (do_edge_calls_spec demo_entities) as (_ & Hone & _).
  rewrite (Hone 0 demo_world _ Hr). reflexivity.
Defined.

Lemma do_nearby_calls_records_witness :
  (0, (-1)%Z, 1) ∈ pass_records demo_entities overlap_world
                     (elements (_active_objs (game overlap_world)))
  /\ (1, (-1)%Z, 0) ∈ pass_records demo_entities overlap_world
                        (elements (_active_objs (game overlap_world)))
  /\ length (pass_records demo_entities overlap_world
               (elements (_active_objs (game overlap_world)))) = 2 * (2 - 1).
Proof.
  destruct (do_nearby_calls_records demo_entities overlap_world)
    as (_ & _ & Hlen & _ & _ & _ & Hpair & _).
  assert (H0 : elements (_active_objs (game overlap_world)) !! 0 = Some 1)
    by (vm_compute; reflexivity).
  assert (H1 : elements (_active_objs (game overlap_world)) !! 1 = Some 0)
    by (vm_compute; reflexivity).
  pose proof (Hpair 0 1 1 0 (le_n 1) H0 H1) as Hp.
  split; [apply Hp|]. split; [apply Hp|]. exact Hlen.
Defined.

Lemma do_nearby_calls_early_stop_witness :
  do_nearby_calls demo_entities demo_world
  = Ok tt (world_of (do_nearby_calls demo_entities demo_world))
  /\ exists segs : list (list (entry * bool)),
       length segs = 3
       /\ calls (world_of (do_nearby_calls demo_entities demo_world))
          = concat (map (map (nearby_event [2; 1; 0])) segs).
Proof.
  assert (Hr : do_nearby_calls demo_entities demo_world
               = Ok tt (world_of (do_nearby_calls demo_entities demo_world)))
    by (vm_compute; reflexivity).
  split; [exact Hr|].
  destruct (do_nearby_calls_early_stop demo_entities demo_world _ Hr)
    as (segs & Hlen & Hcalls & _).
  exists segs. split; [exact Hlen|exact Hcalls].
Defined.

Lemma do_nearby_calls_order_witness :
  StronglySorted entry_lex
    (pass_distances demo_entities demo_world
       (elements (_active_objs (game demo_world))))
  /\ pass_distances demo_entities demo_world
       (elements (_active_objs (game demo_world)))
     = [(0, 4%Z, 2); (0, 5%Z, 1); (1, 3%Z, 2); (1, 5%Z, 0); (2, 3%Z, 1); (2, 4%Z, 0)].
Proof.
  destruct (do_nearby_calls_order (HO:=Z_NumberOrder) demo_entities demo_world)
    as (_ & Hsorted & _).
  split; [exact Hsorted|]. vm_compute. reflexivity.
Defined.

(** * Further properties of the engine *)

Section More.

Context {num : Type} `{Number num}.
Context {Win : Type} `{Graphics num Win}.
Context {US : Type}.

Local Abbreviation Game := (@Game num Win).
Local Abbreviation World := (@World num Win US).
Local Abbreviation M := (@M num Win US).
Local Abbreviation Event := (@Event num).
Local Abbreviation Entities := (@Entities num Win US).

Local Notation "'let*' x ':=' m 'in' k" := (bind m (fun x => k))
  (at level 10, x name, m at level 100, k at level 200).

Implicit Types (w : World) (g : Game) (o e : Obj) (ent : Entities).

(** Walks through a method, showing that each step keeps a property. *)
Ltac carry_run := apply run_preserves; split; intros; first [assumption | reflexivity].

Ltac carry :=
  cbv zeta;
  first
    [ assumption
    | apply preserves_ret
    | apply preserves_assert
    | apply preserves_py_index
    | apply preserves_bind; [carry | intros ?; carry]
    | apply preserves_for_each; intros ?; carry
    | apply preserves_fold_m; intros ? ?; carry
    | apply preserves_when; carry
    | carry_run
    | apply config_set_preserves; split; intros; first [assumption | reflexivity]
    | apply add_obj_preserves; split; intros; first [assumption | reflexivity]
    | apply remove_obj_preserves; split; intros; first [assumption | reflexivity]
    | lazymatch goal with
      | |- preserves _ (if ?c then _ else _) => destruct c; carry
      | |- preserves _ (match ?p with (_, _) => _ end) => destruct p; carry
      | |- preserves _ (nearby_block _ _ _ ?b) =>
          let IH := fresh "IH" in
          induction b as [|[[? ?] ?] ? IH]; simpl nearby_block; [carry | carry]
      | |- preserves _ ?m =>
          first [ intros ? ?; first [assumption | reflexivity]
                | let h := head_of_term m in unfold h; carry ]
      end ]
with head_of_term m :=
  lazymatch m with
  | ?f _ => head_of_term f
  | _ => m
  end.

(** ** Movement *)

(** X1: a movement pass that returns has called [move] exactly once on
    every active entity (the log grows by one [CallMove] per element of
    the active set, without repetition) and leaves the active set as it
    was, whatever the entities did in [move]. *)
Theorem do_move_calls_spec ent w w' :
  do_move_calls ent w = Ok tt w' ->
  let objs := elements (_active_objs (game w)) in
  calls w' = calls w ++ map CallMove objs
  /\ NoDup objs
  /\ (forall o, (CallMove o : Event) ∈ map CallMove objs
                 <-> o ∈ _active_objs (game w))
  /\ _active_objs (game w') = _active_objs (game w).
Proof.
  unfold do_move_calls. intros (g & w0 & [= <- <-] & Hr)%bind_ok. cbv zeta.
  apply (for_each_logged _ _ CallMove (call_move_logged ent)) in Hr
    as (_ & _ & _ & Hact & Hcalls).
  split_and!; [done|apply NoDup_elements| |done].
  intros o. rewrite <- elem_of_elements. split.
  - intros Hin. apply list_elem_of_In, in_map_iff in Hin as (o' & [= ->] & Hin).
    by apply list_elem_of_In.
  - intros Hin. apply list_elem_of_In, in_map. by apply list_elem_of_In.
Qed.

(** ** Deferred changes *)

(** X2: the active set, the bounds and the frame rate are out of reach of
    everything but reconciliation: configuration, [set_game_over],
    [is_over], [add_obj], [remove_obj] and the three dispatch phases leave
    them exactly as they were, whether they return or raise and whatever
    the callbacks do; [_execute_adds_and_removes] and [draw] change the
    active set to the reconciled one and nothing else of these. *)
Theorem active_set_changes_only_at_reconciliation ent op w :
  let w' := world_of (exec ent op w) in
  _wid (game w') = _wid (game w)
  /\ _hei (game w') = _hei (game w)
  /\ _frame_rate (game w') = _frame_rate (game w)
  /\ _active_objs (game w')
     = match op with
       | OpExecuteAddsAndRemoves | OpDraw =>
           (_active_objs (game w) ∖ _pending_removes (game w))
           ∪ _pending_adds (game w)
       | _ => _active_objs (game w)
       end.
Proof.
  cbv zeta.
  assert (Hfix : forall op' w0,
             (_wid (game (world_of (exec ent op' w0))),
              _hei (game (world_of (exec ent op' w0))),
              _frame_rate (game (world_of (exec ent op' w0))))
             = (_wid (game w0), _hei (game w0), _frame_rate (game w0))).
  { intros op'.
    apply (preserves_eq
             (fun w0 => (_wid (game w0), _hei (game w0), _frame_rate (game w0)))).
    intros x. destruct op'; unfold exec; carry. }
  specialize (Hfix op w). injection Hfix as -> -> ->.
  split_and!; try done.
  destruct op;
    try (apply (preserves_eq (fun w0 => _active_objs (game w0)));
         intros x; unfold exec; carry).
  - reflexivity.
  - apply draw_active.
Qed.

(** ** The registry invariant *)

(** What the assertions of [add_obj] and [remove_obj] maintain: only
    active entities are staged for removal, and no active entity is
    staged for addition. *)
Definition registry_ok w : Prop :=
  _pending_removes (game w) ⊆ _active_objs (game w)
  /\ _pending_adds (game w) ## _active_objs (game w).

Lemma registry_ok_add_obj o : preserves registry_ok (add_obj o).
Proof.
  intros w [Hr Ha]. destruct (decide (o ∈ _active_objs (game w))) as [Hin|Hout].
  - by rewrite add_obj_active.
  - destruct (decide (o ∈ _pending_adds (game w))) as [Hp|Hp].
    + by rewrite add_obj_pending.
    + rewrite add_obj_ok by done. split; simpl; [done|set_solver].
Qed.

Lemma registry_ok_remove_obj o : preserves registry_ok (remove_obj o).
Proof.
  intros w [Hr Ha]. destruct (decide (o ∈ _active_objs (game w))) as [Hin|Hout].
  - rewrite remove_obj_ok by done. split; simpl; [set_solver|done].
  - by rewrite remove_obj_not_active.
Qed.

Lemma registry_ok_run {A} (p : Prog A) : preserves registry_ok (run p).
Proof.
  induction p as [a|f k IH|k IH|f k IH|param val k IH|k IH|k IH|o k IH|o k IH];
    simpl.
  - apply preserves_ret.
  - intros w Hw. by apply IH.
  - intros w Hw. by apply IH.
  - apply preserves_bind; [|intros _; exact IH]. by intros w Hw.
  - apply preserves_bind; [|intros _; exact IH].
    unfold config_set. destruct (String.eqb _ _); [by intros w Hw|].
    apply preserves_assert.
  - apply preserves_bind; [|intros _; exact IH]. by intros w Hw.
  - apply preserves_bind; [|intros b; apply IH]. by intros w Hw.
  - apply preserves_bind; [apply registry_ok_add_obj|intros _; exact IH].
  - apply preserves_bind; [apply registry_ok_remove_obj|intros _; exact IH].
Qed.

(** The dispatch phases only act through callbacks and the log. *)
Lemma phases_preserve (P : World -> Prop) ent :
  (forall A (p : Prog A), preserves P (run p)) ->
  (forall ev w, P w -> P (log ev w)) ->
  preserves P (do_nearby_calls ent)
  /\ preserves P (do_move_calls ent)
  /\ preserves P (do_edge_calls ent)
  /\ (forall l, preserves P (for_each l (call_draw ent))).
Proof.
  intros Hrun Hlog.
  assert (Hemit : forall ev, preserves P (emit ev)) by (intros ev w; apply Hlog).
  assert (Hpure : forall A (m : M A),
             (forall w, world_of (m w) = w) -> preserves P m).
  { intros A m Hm w Hw. by rewrite Hm. }
  split_and!.
  - unfold do_nearby_calls. apply preserves_bind; [by apply Hpure|intros g].
    unfold nearby_calls_on.
    apply preserves_bind; [by apply Hpure|intros positions].
    apply preserves_bind.
    { apply Hpure. intros w. by rewrite build_distances_eq. }
    intros distances. cbv zeta.
    apply preserves_bind; [apply preserves_assert|intros _].
    apply preserves_for_each. intros i.
    generalize (py_slice (list_sort distances)
                  ((length positions - 1) * i) ((length positions - 1) * (i + 1))).
    intros blk. induction blk as [|[[k1 d] k2] rest IH]; simpl.
    + apply preserves_ret.
    + apply preserves_bind; [apply preserves_assert|intros _].
      apply preserves_bind; [apply preserves_py_index|intros pl].
      apply preserves_bind; [apply preserves_py_index|intros pr].
      apply preserves_bind.
      { unfold call_nearby. apply preserves_bind; [apply Hrun|intros b].
        apply preserves_bind; [apply Hemit|intros _; apply preserves_ret]. }
      intros b. destruct b; simpl; [exact IH|apply preserves_ret].
  - unfold do_move_calls. apply preserves_bind; [by apply Hpure|intros g].
    apply preserves_for_each. intros o. unfold call_move.
    apply preserves_bind; [apply Hrun|intros _; apply Hemit].
  - unfold do_edge_calls. apply preserves_bind; [by apply Hpure|intros g].
    apply preserves_for_each. intros o. unfold edge_calls_for.
    assert (Hedge : forall side coord, preserves P (call_edge ent o side coord)).
    { intros side coord. unfold call_edge.
      apply preserves_bind; [apply Hrun|intros _; apply Hemit]. }
    apply preserves_bind; [by apply Hpure|intros u].
    destruct (get_xy ent o u) as [x y].
    apply preserves_bind; [by apply Hpure|intros u'].
    apply preserves_bind; [apply preserves_when, Hedge|intros _].
    apply preserves_bind; [apply preserves_when, Hedge|intros _].
    apply preserves_bind; [by apply Hpure|intros g1].
    apply preserves_bind.
    { apply preserves_when. apply preserves_bind; [by apply Hpure|intros g2].
      apply Hedge. }
    intros _. apply preserves_bind; [by apply Hpure|intros g3].
    apply preserves_when. apply preserves_bind; [by apply Hpure|intros g4].
    apply Hedge.
  - intros l. apply preserves_for_each. intros o. unfold call_draw.
    apply preserves_bind; [apply Hrun|intros _; apply Hemit].
Qed.

Lemma registry_ok_exec ent op : preserves registry_ok (exec ent op).
Proof.
  destruct (phases_preserve registry_ok ent (@registry_ok_run))
    as (Hnear & Hmove & Hedge & Hdraw); [by intros ev w Hw|].
  destruct op; unfold exec.
  - unfold config_set. destruct (String.eqb _ _); [by intros w Hw|].
    apply preserves_assert.
  - by intros w Hw.
  - by intros w Hw.
  - apply registry_ok_add_obj.
  - apply registry_ok_remove_obj.
  - intros w _. split; simpl; set_solver.
  - exact Hnear.
  - exact Hmove.
  - exact Hedge.
  - unfold draw. apply preserves_bind; [intros w _; split; simpl; set_solver|].
    intros _. apply preserves_bind; [by intros ? ?|]. intros g.
    destruct (is_killed (_win g)); [by intros ? ?|].
    apply preserves_bind; [by intros ? ?|intros _].
    apply preserves_bind; [by intros ? ?|intros g1].
    apply preserves_bind; [apply Hdraw|intros _].
    apply preserves_bind; [by intros ? ?|intros g2]. by intros ? ?.
Qed.

(** X3: a new game satisfies the registry invariant -- every entity
    staged for removal is active, no entity staged for addition is --
    and every operation of the engine keeps it, returning or raising,
    whatever the callbacks do; so it holds after any sequence of them. *)
Theorem registry_invariant ent :
  (forall title frame_rate wid hei u,
      registry_ok (mkWorld (Game_init title frame_rate wid hei) u []))
  /\ (forall op w, registry_ok w -> registry_ok (world_of (exec ent op w)))
  /\ (forall ops w, registry_ok w -> registry_ok (exec_all ent ops w)).
Proof.
  split_and!.
  - intros. split; simpl; set_solver.
  - intros op w. apply registry_ok_exec.
  - intros ops. induction ops as [|op ops IH]; intros w Hw; simpl; [done|].
    apply IH. by apply registry_ok_exec.
Qed.

(** X4: under the registry invariant the order in which reconciliation
    applies removals and additions is immaterial, the reconciled active
    set gains exactly the staged additions and loses exactly the staged
    removals, and its size is the old size minus the removals plus the
    additions. *)
Theorem reconcile_under_invariant w :
  registry_ok w ->
  let A := _active_objs (game w) in
  let R := _pending_removes (game w) in
  let P := _pending_adds (game w) in
  let A' := _active_objs (game (world_of (_execute_adds_and_removes w))) in
  A' = (A ∪ P) ∖ R
  /\ (forall x, x ∈ A' <-> (x ∈ A /\ x ∉ R) \/ x ∈ P)
  /\ (forall x, x ∈ R -> x ∉ A')
  /\ size A' + size R = size A + size P
  /\ registry_ok (world_of (_execute_adds_and_removes w)).
Proof.
  intros [Hr Ha]. cbv zeta. simpl. split_and!.
  - set_solver.
  - set_solver.
  - set_solver.
  - rewrite size_union by set_solver. rewrite size_difference by done.
    assert (size (_pending_removes (game w)) <= size (_active_objs (game w)))
      by (by apply subseteq_size).
    lia.
  - split; simpl; set_solver.
Qed.

(** X5: round trip.  In a game with nothing staged, adding an entity
    that is not active, reconciling, removing it and reconciling again
    succeeds at every step, has the entity active in between, and ends in
    exactly the world it started from. *)
Theorem add_reconcile_remove_reconcile e w :
  _pending_adds (game w) = ∅ -> _pending_removes (game w) = ∅ ->
  e ∉ _active_objs (game w) ->
  exists w1 w2 w3,
    add_obj e w = Ok tt w1
    /\ _execute_adds_and_removes w1 = Ok tt w2
    /\ _active_objs (game w2) = _active_objs (game w) ∪ {[e]}
    /\ remove_obj e w2 = Ok tt w3
    /\ _execute_adds_and_removes w3 = Ok tt w.
Proof.
  intros Hp Hr He. eexists _, _, _.
  split; [apply add_obj_ok; [done|rewrite Hp; set_solver]|].
  split; [apply execute_adds_and_removes_eq|].
  split; [simpl; rewrite Hp, Hr; set_solver|].
  split; [apply remove_obj_ok; simpl; set_solver|].
  rewrite execute_adds_and_removes_eq. f_equal.
  destruct w as [[wid hei rate win acc A R P over] u c].
  cbn [game _pending_adds _pending_removes _active_objs] in Hp, Hr, He. subst P R.
  cbv [with_game reconciled set_pending_adds set_pending_removes set_active_objs
       game user calls _wid _hei _frame_rate _win _account_for_radii_in_dist
       _active_objs _pending_removes _pending_adds _game_over].
  do 2 f_equal. set_solver.
Qed.

(** ** Proximity dispatch: edge cases and what a notification carries *)

(** X6: with fewer than two active entities there is no pair: the
    proximity pass returns at once, makes no call and changes nothing. *)
Theorem do_nearby_calls_fewer_than_two ent w :
  size (_active_objs (game w)) <= 1 -> do_nearby_calls ent w = Ok tt w.
Proof.
  intros Hsize. rewrite do_nearby_calls_eq, nearby_calls_on_eq.
  change (size (_active_objs (game w)))
    with (length (elements (_active_objs (game w)))) in Hsize.
  destruct (elements (_active_objs (game w))) as [|o [|o' l]]; simpl in Hsize.
  - reflexivity.
  - reflexivity.
  - lia.
Qed.

Lemma block_sublist_of n (ds : list (entry (num:=num))) i :
  block n ds i `sublist_of` ds.
Proof.
  unfold block, py_slice. etransitivity; [apply sublist_take|apply sublist_drop].
Qed.

Lemma elem_of_concat {A} (x : A) (ls : list (list A)) :
  x ∈ concat ls <-> exists l, x ∈ l /\ l ∈ ls.
Proof.
  induction ls as [|l ls IH]; simpl.
  - split; [by intros ?%elem_of_nil|by intros (l & _ & ?%elem_of_nil)].
  - rewrite elem_of_app, IH. split.
    + intros [Hx|(l' & Hx & Hl')]; [exists l|exists l']; split; try done;
        [by left|by right].
    + intros (l' & Hx & [->|Hl']%elem_of_cons); [by left|right; by exists l'].
Qed.

Lemma delivered_elem (blk : list entry) (seg : list (entry * bool))
    (r : entry (num:=num) * bool) :
  delivered blk seg -> r ∈ seg -> r.1 ∈ blk.
Proof.
  induction 1 as [|a rest|a rest seg _ IH]; intros Hin.
  - by apply elem_of_nil in Hin.
  - apply elem_of_cons in Hin as [->|Hin]; [left|by apply elem_of_nil in Hin].
  - apply elem_of_cons in Hin as [->|Hin]; [left|right; by apply IH].
Qed.

(** The distance of two entities as a pass computes it, from the
    positions and radii in [w]. *)
Definition pair_distance ent w (o1 o2 : Obj) : num :=
  let '(x1, y1) := get_xy ent o1 (user w) in
  let '(x2, y2) := get_xy ent o2 (user w) in
  if _account_for_radii_in_dist (game w)
  then num_sub (num_sub (euclid x1 y1 x2 y2) (get_radius ent o1 (user w)))
               (get_radius ent o2 (user w))
  else euclid x1 y1 x2 y2.

Lemma dist_at_pair_distance ent w (objs : list Obj) i j o1 o2 :
  objs !! i = Some o1 -> objs !! j = Some o2 ->
  dist_at ent (_account_for_radii_in_dist (game w)) (user w)
          (positions_of ent (user w) objs) i j
  = pair_distance ent w o1 o2.
Proof.
  intros H1 H2. unfold dist_at, pair_distance.
  rewrite (positions_of_lookup_Some ent (user w) _ _ _ H1).
  rewrite (positions_of_lookup_Some ent (user w) _ _ _ H2).
  by destruct (get_xy ent o1 (user w)), (get_xy ent o2 (user w)).
Qed.

(** X7: every [nearby] call of a pass that returns is between two
    different active entities, and the distance it carries is the one
    computed from the positions and radii at the start of the pass:
    entities that move or resize inside their callbacks do not change
    what is delivered later in the same pass. *)
Theorem nearby_calls_use_the_snapshot ent w w' :
  do_nearby_calls ent w = Ok tt w' ->
  exists evs : list Event,
    calls w' = calls w ++ evs
    /\ forall ev, ev ∈ evs ->
         exists l r d b,
           ev = CallNearby l r d b
           /\ l ∈ _active_objs (game w) /\ r ∈ _active_objs (game w)
           /\ l <> r
           /\ (d = pair_distance ent w l r \/ d = pair_distance ent w r l).
Proof.
  rewrite do_nearby_calls_eq. intros Hr.
  apply nearby_calls_on_delivered in Hr as (segs & Hsegs & Hlog).
  set (objs := elements (_active_objs (game w))) in *.
  eexists. split; [by destruct Hlog as (_ & _ & _ & _ & ?)|].
  intros ev Hev.
  apply elem_of_concat in Hev as (evseg & Hev & Hevseg).
  apply list_elem_of_In, in_map_iff in Hevseg as (seg & <- & Hseg).
  apply list_elem_of_In, in_map_iff in Hev as (r & <- & Hr).
  apply list_elem_of_In in Hseg, Hr.
  apply list_elem_of_lookup in Hseg as [i Hi].
  destruct (Forall2_lookup_r _ _ _ _ _ Hsegs Hi) as (i' & _ & Hd & _).
  apply (delivered_elem _ _ r Hd) in Hr.
  eapply elem_of_sublist in Hr; [|apply block_sublist_of].
  unfold pass_distances in Hr. rewrite list_sort_perm in Hr.
  apply elem_of_records in Hr as (a & b & Hab & Hr).
  destruct (lookup_lt_is_Some_2 objs a) as [oa Hoa]; [lia|].
  destruct (lookup_lt_is_Some_2 objs b) as [ob Hob]; [lia|].
  assert (Hne : oa <> ob).
  { intros ->. assert (a = b); [|lia].
    apply (NoDup_lookup objs a b ob); [apply NoDup_elements|exact Hoa|exact Hob]. }
  rewrite (dist_at_pair_distance ent w objs a b oa ob Hoa Hob) in Hr.
  assert (Hina : oa ∈ _active_objs (game w)).
  { apply elem_of_elements. by eapply list_elem_of_lookup_2. }
  assert (Hinb : ob ∈ _active_objs (game w)).
  { apply elem_of_elements. by eapply list_elem_of_lookup_2. }
  destruct r as [rec ans]. simpl in Hr.
  destruct Hr as [-> | ->]; unfold nearby_event, entity_at, left_of, right_of, dist_of;
    simpl; rewrite Hoa, Hob; simpl.
  - exists oa, ob, (pair_distance ent w oa ob), ans. split_and!; try done. by left.
  - exists ob, oa, (pair_distance ent w oa ob), ans. split_and!; try done. by right.
Qed.

(** ** What can be raised *)








Section MoreSorted.

Context {HO : NumberOrder num}.




(** X10: in a pass that returns over at least two entities, every
    entity is notified at least once, and its first notification is for a
    candidate at the least distance among all its candidates. *)
Theorem nearest_neighbour_first ent w w' :
  do_nearby_calls ent w = Ok tt w' ->
  2 <= size (_active_objs (game w)) ->
  let objs := elements (_active_objs (game w)) in
  let ds := pass_distances ent w objs in
  exists segs : list (list (entry * bool)),
    length segs = length objs
    /\ calls w' = calls w ++ concat (map (map (nearby_event objs)) segs)
    /\ forall i seg, segs !! i = Some seg ->
         exists a b rest,
           seg = (a, b) :: rest
           /\ left_of a = i
           /\ forall c, c ∈ ds -> left_of c = i ->
                        num_ltb (dist_of c) (dist_of a) = false.
Proof.
  rewrite do_nearby_calls_eq. intros Hr Hsize. cbv zeta.
  change (size (_active_objs (game w)))
    with (length (elements (_active_objs (game w)))) in Hsize.
  apply nearby_calls_on_delivered in Hr as (segs & Hsegs & Hlog).
  set (objs := elements (_active_objs (game w))) in *.
  exists segs. split_and!.
  - apply Forall2_length in Hsegs. by rewrite length_seq in Hsegs.
  - by destruct Hlog as (_ & _ & _ & _ & ?).
  - intros i seg Hi.
    destruct (Forall2_lookup_r _ _ _ _ _ Hsegs Hi) as (i' & Hi' & Hd & _).
    apply lookup_seq in Hi' as [-> Hlt]. simpl in Hd.
    assert (Hlen : length (block (length objs) (pass_distances ent w objs) i)
                   = length objs - 1)
      by (apply block_length; [apply pass_distances_length|done]).
    assert (Hs : StronglySorted entry_lex
                   (block (length objs) (pass_distances ent w objs) i)).
    { eapply StronglySorted_sublist; [apply block_sublist_of|].
      apply pass_distances_sorted. }
    pose proof (pass_block_filter ent w objs i Hlt) as Hfilter.
    destruct (block (length objs) (pass_distances ent w objs) i) as [|a blk] eqn:Eb;
      [simpl in Hlen; lia|].
    assert (Hla : left_of a = i).
    { assert (Hin : a ∈ filter (fun c => left_of c = i) (pass_distances ent w objs))
        by (rewrite <- Hfilter; left).
      by apply list_elem_of_filter in Hin as [? _]. }
    assert (Hmin : forall c, c ∈ pass_distances ent w objs -> left_of c = i ->
                     num_ltb (dist_of c) (dist_of a) = false).
    { intros c Hc Hlc.
      assert (Hin : c ∈ a :: blk).
      { rewrite Hfilter. by apply list_elem_of_filter. }
      apply elem_of_cons in Hin as [->|Hin]; [apply num_ltb_irrefl|].
      apply StronglySorted_inv in Hs as [_ Hall].
      eapply Forall_forall in Hall; [|exact Hin].
      destruct a as [[i1 d1] j1], c as [[i2 d2] j2].
      unfold left_of, dist_of, entry_lex in *. simpl in *. subst i1 i2.
      destruct Hall as [?|[_ [Hlt'|[-> _]]]]; [lia| |].
      - by apply num_ltb_asym.
      - apply num_ltb_irrefl. }
    inversion Hd as [|a' rest' Ha|a' rest' seg' Hd' Ha]; subst.
    + exists a, false, []. done.
    + exists a, true, seg'. done.
Qed.

(** X11: when every entity answers [True] throughout a pass, nothing is
    skipped: the pass makes [n * (n - 1)] calls, and for every two
    different active entities [l] and [r] it calls [l.nearby(r, ...)],
    with the distance of the pair. *)
Theorem full_pass_notifies_every_pair ent w w' :
  do_nearby_calls ent w = Ok tt w' ->
  let n := size (_active_objs (game w)) in
  exists evs : list Event,
    calls w' = calls w ++ evs
    /\ ((forall l r d, CallNearby l r d false ∉ evs) ->
        length evs = n * (n - 1)
        /\ forall l r,
             l ∈ _active_objs (game w) -> r ∈ _active_objs (game w) -> l <> r ->
             exists d,
               CallNearby l r d true ∈ evs
               /\ (d = pair_distance ent w l r \/ d = pair_distance ent w r l)).
Proof.
  rewrite do_nearby_calls_eq. intros Hr. cbv zeta.
  change (size (_active_objs (game w)))
    with (length (elements (_active_objs (game w)))).
  apply nearby_calls_on_delivered in Hr as (segs & Hsegs & Hlog).
  set (objs := elements (_active_objs (game w))) in *.
  assert (Hevs : concat (map (map (nearby_event objs)) segs)
                 = map (nearby_event objs) (concat segs)).
  { clear. induction segs as [|seg segs IH]; [done|].
    simpl. by rewrite map_app, IH. }
  exists (map (nearby_event objs) (concat segs)).
  split; [destruct Hlog as (_ & _ & _ & _ & ->); by rewrite Hevs|].
  intros Hnofalse.
  assert (Htrue : Forall (fun r => r.2 = true) (concat segs)).
  { apply Forall_forall. intros [[[k1 d] k2] b] Hin. destruct b; [done|].
    destruct (Hnofalse (entity_at objs k1) (entity_at objs k2) d).
    apply list_elem_of_In, in_map_iff. exists (k1, d, k2, false).
    split; [done|by apply list_elem_of_In]. }
  assert (Hd : Forall2
            (fun i seg => delivered (block (length objs) (pass_distances ent w objs) i) seg)
            (seq 0 (length objs)) segs).
  { eapply Forall2_impl; [exact Hsegs|]. by intros i seg [? _]. }
  apply delivered_concat in Hd as [_ Hall]. specialize (Hall Htrue).
  rewrite <- pass_distances_blocks in Hall.
  split.
  - rewrite length_map, <- (length_map fst), Hall. apply pass_distances_length.
  - intros l r Hl Hr Hne.
    apply elem_of_elements, list_elem_of_lookup in Hl as [i Hi].
    apply elem_of_elements, list_elem_of_lookup in Hr as [j Hj].
    fold objs in Hi, Hj.
    assert (Hij : i <> j) by (intros ->; congruence).
    pose proof (lookup_lt_Some _ _ _ Hi) as Hilt.
    pose proof (lookup_lt_Some _ _ _ Hj) as Hjlt.
    set (d := dist_at ent (_account_for_radii_in_dist (game w)) (user w)
                (positions_of ent (user w) objs) (i `min` j) (i `max` j)).
    assert (Hrec : (i, d, j) ∈ pass_distances ent w objs).
    { unfold pass_distances. rewrite list_sort_perm. apply elem_of_records.
      exists (i `min` j), (i `max` j). split; [lia|].
      unfold d. destruct (decide (i < j)).
      - left. by rewrite Nat.min_l, Nat.max_r by lia.
      - right. by rewrite Nat.min_r, Nat.max_l by lia. }
    rewrite <- Hall in Hrec.
    apply list_elem_of_In, in_map_iff in Hrec as ([rec b] & Hfst & Hin).
    simpl in Hfst. subst rec.
    eapply Forall_forall in Htrue; [|by apply list_elem_of_In]. simpl in Htrue.
    subst b. exists d. split.
    + apply list_elem_of_In, in_map_iff. exists (i, d, j, true). split; [|done].
      unfold nearby_event, entity_at, left_of, right_of, dist_of. simpl.
      by rewrite Hi, Hj.
    + unfold d. destruct (decide (i < j)).
      * left. rewrite Nat.min_l, Nat.max_r by lia.
        by apply dist_at_pair_distance.
      * right. rewrite Nat.min_r, Nat.max_l by lia.
        by apply dist_at_pair_distance.
Qed.

End MoreSorted.

End More.

(** * The further properties at work *)

(** Entities that never touch the registry and always go on listening. *)
Definition calm_entities : @Entities Z DemoWin Discs := {|
  get_xy      := fun o u => (u o).1;
  get_radius  := fun o u => (u o).2;
  nearby      := fun l r d => CallIsOver (fun over => Ret true);
  move        := fun o => Self (move_right o) (Ret tt);
  edge        := fun o side coord => CallSetGameOver (Ret tt);
  entity_draw := fun o => Paint (fun win => win) (Ret tt);
|}.

(** A game with a single entity. *)
Definition solo_world : @World Z DemoWin Discs :=
  mkWorld (set_active_objs {[4]} (Game_init "solo" 30%Z 100%Z 100%Z)) demo_discs [].


Lemma demo_staged_world_ok : registry_ok demo_staged_world.
Proof.
  split.
  - apply (bool_decide_unpack
             (_pending_removes (game demo_staged_world)
              ⊆ _active_objs (game demo_staged_world))).
    vm_compute. exact I.
  - apply (bool_decide_unpack
             (_pending_adds (game demo_staged_world)
              ## _active_objs (game demo_staged_world))).
    vm_compute. exact I.
Defined.

Lemma do_move_calls_spec_witness :
  do_move_calls demo_entities demo_world
  = Ok tt (world_of (do_move_calls demo_entities demo_world))
  /\ calls (world_of (do_move_calls demo_entities demo_world))
     = [] ++ map CallMove (elements (_active_objs (game demo_world))).
Proof.
  assert (Hr : do_move_calls demo_entities demo_world
               = Ok tt (world_of (do_move_calls demo_entities demo_world)))
    by (vm_compute; reflexivity).
  split; [exact Hr|].
  apply (do_move_calls_spec demo_entities demo_world _ Hr).
Defined.

Lemma registry_invariant_witness :
  registry_ok demo_staged_world
  /\ registry_ok
       (exec_all demo_entities
          [OpAddObj 5; OpRemoveObj 1; OpAddObj 1; OpDoNearbyCalls; OpDoMoveCalls;
           OpDoEdgeCalls; OpDraw; OpRemoveObj 0]
          demo_staged_world).
Proof.
  split; [exact demo_staged_world_ok|].
  apply (registry_invariant demo_entities). exact demo_staged_world_ok.
Defined.

Lemma reconcile_under_invariant_witness :
  registry_ok demo_staged_world
  /\ size (_active_objs (game (world_of (_execute_adds_and_removes demo_staged_world))))
     + size (_pending_removes (game demo_staged_world))
     = size (_active_objs (game demo_staged_world))
       + size (_pending_adds (game demo_staged_world)).
Proof.
  split; [exact demo_staged_world_ok|].
  apply (reconcile_under_invariant demo_staged_world demo_staged_world_ok).
Defined.

Lemma add_reconcile_remove_reconcile_witness :
  exists w1 w2 w3,
    add_obj 7 demo_world = Ok tt w1
    /\ _execute_adds_and_removes w1 = Ok tt w2
    /\ _active_objs (game w2) = _active_objs (game demo_world) ∪ {[7]}
    /\ remove_obj 7 w2 = Ok tt w3
    /\ _execute_adds_and_removes w3 = Ok tt demo_world.
Proof.
  apply (add_reconcile_remove_reconcile 7 demo_world).
  - reflexivity.
  - reflexivity.
  - apply (bool_decide_eq_false_1 (7 ∈ _active_objs (game demo_world))).
    vm_compute. reflexivity.
Defined.

Lemma do_nearby_calls_fewer_than_two_witness :
  size (_active_objs (game solo_world)) <= 1
  /\ do_nearby_calls demo_entities solo_world = Ok tt solo_world.
Proof.
  assert (Hs : size (_active_objs (game solo_world)) <= 1).
  { apply (bool_decide_unpack (size (_active_objs (game solo_world)) <= 1)).
    vm_compute. exact I. }
  split; [exact Hs|].
  apply (do_nearby_calls_fewer_than_two demo_entities solo_world Hs).
Defined.

Lemma nearby_calls_use_the_snapshot_witness :
  do_nearby_calls demo_entities demo_world
  = Ok tt (world_of (do_nearby_calls demo_entities demo_world))
  /\ exists evs : list (@Event Z),
       calls (world_of (do_nearby_calls demo_entities demo_world)) = [] ++ evs
       /\ forall ev, ev ∈ evs -> exists l r d b, ev = CallNearby l r d b /\ l <> r.
Proof.
  assert (Hr : do_nearby_calls demo_entities demo_world
               = Ok tt (world_of (do_nearby_calls demo_entities demo_world)))
    by (vm_compute; reflexivity).
  split; [exact Hr|].
  destruct (nearby_calls_use_the_snapshot demo_entities demo_world _ Hr)
    as (evs & Hcalls & Hall).
  exists evs. split; [exact Hcalls|].
  intros ev Hev. destruct (Hall ev Hev) as (l & r & d & b & Heq & _ & _ & Hne & _).
  exists l, r, d, b. split; [exact Heq|exact Hne].
Defined.



Lemma nearest_neighbour_first_witness :
  do_nearby_calls demo_entities demo_world
  = Ok tt (world_of (do_nearby_calls demo_entities demo_world))
  /\ 2 <= size (_active_objs (game demo_world))
  /\ exists segs : list (list (@entry Z * bool)),
       length segs = length (elements (_active_objs (game demo_world)))
       /\ forall i seg, segs !! i = Some seg ->
            exists a b rest, seg = (a, b) :: rest /\ left_of a = i.
Proof.
  assert (Hr : do_nearby_calls demo_entities demo_world
               = Ok tt (world_of (do_nearby_calls demo_entities demo_world)))
    by (vm_compute; reflexivity).
  assert (Hs : 2 <= size (_active_objs (game demo_world))).
  { apply (bool_decide_unpack (2 <= size (_active_objs (game demo_world)))).
    vm_compute. exact I. }
  split; [exact Hr|]. split; [exact Hs|].
  destruct (nearest_neighbour_first (HO:=Z_NumberOrder) demo_entities demo_world _ Hr Hs)
    as (segs & Hlen & _ & Hall).
  exists segs. split; [exact Hlen|].
  intros i seg Hi. destruct (Hall i seg Hi) as (a & b & rest & Heq & Hl & _).
  exists a, b, rest. split; [exact Heq|exact Hl].
Defined.

Lemma full_pass_notifies_every_pair_witness :
  do_nearby_calls calm_entities demo_world
  = Ok tt (world_of (do_nearby_calls calm_entities demo_world))
  /\ length (calls (world_of (do_nearby_calls calm_entities demo_world))) = 3 * (3 - 1)
  /\ exists evs : list (@Event Z),
       calls (world_of (do_nearby_calls calm_entities demo_world)) = [] ++ evs.
Proof.
  assert (Hr : do_nearby_calls calm_entities demo_world
               = Ok tt (world_of (do_nearby_calls calm_entities demo_world)))
    by (vm_compute; reflexivity).
  split; [exact Hr|]. split; [vm_compute; reflexivity|].
  destruct (full_pass_notifies_every_pair (HO:=Z_NumberOrder) calm_entities demo_world _ Hr)
    as (evs & Hcalls & _).
  exists evs. exact Hcalls.
Defined.
